(** * Durable task queue of the decompilation engine

    A shallow embedding of [internal/decompile]: the task store
    ([NewTaskStore], [AddTasks], [ResetInFlightTasks], [FetchPendingBatch],
    [UpdateTaskSuccess], [UpdateTaskFailure], [GetProgress]) over a model of
    the [decompilation_tasks] table, the prompt builder [formatPrompt], the
    loop of [DecompileWorker], and concurrent calls of [FetchPendingBatch]
    under SQLite's locks.

    Conventions.
    - Go's [int] and [int64] are [Z]; the one arithmetic operation of the
      package ([task.Retries+1]) wraps at 64 bits ([add64]).
    - [sql.NullString] is [option string]; [time.Time] is a [Z] (seconds).
    - The table is the list of its rows in rowid order, together with the
      AUTOINCREMENT counter of [sqlite_sequence].  Row ids are unbounded.
    - Every call into the database driver may fail, whatever the cause
      (I/O, a busy database, a cancelled context, a statement the engine
      refuses).  The world carries an oracle [failing] telling, for the
      k-th driver call, whether it fails, and an oracle [clock] giving the
      value of CURRENT_TIMESTAMP seen by it.  Store methods are
      computations in a state monad over the world.
    - The remote model and the shutdown signal are oracles of the worker. *)

From stdpp Require Import gmap strings list fin_maps.
From Stdlib Require Import ZArith Lia Ascii.

Local Open Scope string_scope.
Local Open Scope list_scope.
Local Open Scope Z_scope.

(* ===================================================================== *)
(** ** Data model *)
(* ===================================================================== *)

(** [type TaskStatus string] and its four constants. *)
Definition TaskStatus : Type := string.
Definition StatusPending   : TaskStatus := "pending".
Definition StatusInFlight  : TaskStatus := "in_flight".
Definition StatusCompleted : TaskStatus := "completed".
Definition StatusFailed    : TaskStatus := "failed".

(** [type Task struct]; also the shape of a row of [decompilation_tasks]. *)
Record Task : Type := mkTask {
  ID               : Z;
  ClassName        : string;
  SymbolName       : string;
  AssemblyCode     : string;
  Status           : TaskStatus;
  Retries          : Z;
  DecompiledSource : option string;
  ErrorMessage     : option string;
  CreatedAt        : Z;
  UpdatedAt        : Z
}.

(** [type DecompiledResult struct]: one outcome of the model reply. *)
Record DecompiledResult : Type := mkResult {
  rSymbolName       : string;
  rDecompiledSource : string;
  rSuccess          : bool;
  rErrorMessage     : string
}.

(** Errors returned by the store: [fmt.Errorf("<prefix>: %w", err)] around a
    driver error, or the driver error itself ([return tx.Commit()]). *)
Inductive error : Type :=
| Wrapped (prefix : string)
| DriverError.

(** 64-bit two's complement wrap-around of Go's [int]. *)
Definition minInt64 : Z := - 2 ^ 63.
Definition maxInt64 : Z := 2 ^ 63 - 1.
Definition wrap64 (z : Z) : Z := (z + 2 ^ 63) mod 2 ^ 64 - 2 ^ 63.
Definition add64 (a b : Z) : Z := wrap64 (a + b).
Definition in_int64 (z : Z) : Prop := minInt64 <= z <= maxInt64.

(** What a worker writes with [log.Printf] (without the worker number that
    prefixes each line), and its [time.Sleep]. *)
Inductive event : Type :=
| LogStarted
| LogFinished
| LogShutdown
| LogFetchError (e : error)
| Sleep (seconds : Z)
| LogNoMoreTasks
| LogProcessing (n : nat)
| LogFormatPromptFailed (e : string)
| LogAICallFailed (e : string)
| LogUnknownSymbol (symbol : string)
| LogUpdateSuccessFailed (id : Z) (e : error)
| LogAIFailed (symbol msg : string)
| LogUpdateFailureFailed (id : Z) (e : error).

(* ===================================================================== *)
(** ** The world and its monad *)
(* ===================================================================== *)

Record world : Type := World {
  disk    : list Task;   (* rows of decompilation_tasks, in rowid order *)
  autoinc : Z;           (* sqlite_sequence.seq of the table *)
  tick    : nat;         (* number of driver calls made so far *)
  failing : nat -> bool; (* does the k-th driver call fail? *)
  clock   : nat -> Z;    (* CURRENT_TIMESTAMP seen by the k-th driver call *)
  trace   : list event   (* log lines and sleeps, oldest first *)
}.

Definition M (A : Type) : Type := world -> A * world.

Definition ret {A : Type} (a : A) : M A := fun w => (a, w).

Definition bind {A B : Type} (m : M A) (k : A -> M B) : M B :=
  fun w => let (a, w') := m w in k a w'.

Notation "x <~ m ;; k" := (bind m (fun x => k))
  (at level 100, m at next level, right associativity).
Notation "m ;;; k" := (bind m (fun _ => k))
  (at level 100, right associativity).

Definition set_table (rows : list Task) (seq : Z) (w : world) : world :=
  {| disk := rows; autoinc := seq; tick := tick w;
     failing := failing w; clock := clock w; trace := trace w |}.

Definition next_tick (w : world) : world :=
  {| disk := disk w; autoinc := autoinc w; tick := S (tick w);
     failing := failing w; clock := clock w; trace := trace w |}.

(** A driver call that touches no row (Prepare, Scan, rows.Err, Commit):
    [true] when it succeeds. *)
Definition driver : M bool :=
  fun w => (negb (failing w (tick w)), next_tick w).

(** A statement that writes: it sees CURRENT_TIMESTAMP and the table, and is
    applied only when the driver call succeeds. *)
Definition exec (stmt : Z -> list Task * Z -> list Task * Z) : M bool :=
  fun w =>
    if failing w (tick w) then (false, next_tick w)
    else let (rows, seq) := stmt (clock w (tick w)) (disk w, autoinc w) in
         (true, next_tick (set_table rows seq w)).

(** A statement that reads. *)
Definition query {A : Type} (q : list Task -> A) : M (option A) :=
  fun w =>
    if failing w (tick w) then (None, next_tick w)
    else (Some (q (disk w)), next_tick w).

Definition log (e : event) : M unit :=
  fun w => (tt, {| disk := disk w; autoinc := autoinc w; tick := tick w;
                   failing := failing w; clock := clock w;
                   trace := trace w ++ [e] |}).

(** [for _, x := range xs { body(x) }] *)
Fixpoint forEach {A : Type} (xs : list A) (body : A -> M unit) : M unit :=
  match xs with
  | [] => ret tt
  | x :: rest => body x ;;; forEach rest body
  end.

(** Transactions: [BeginTx] remembers the table, [Rollback] restores it. *)
Definition snapshot : Type := (list Task * Z)%type.

Definition BeginTx : M (option snapshot) :=
  fun w =>
    if failing w (tick w) then (None, next_tick w)
    else (Some (disk w, autoinc w), next_tick w).

Definition Rollback (s : snapshot) : M unit :=
  fun w => (tt, set_table (fst s) (snd s) w).

Definition Commit : M bool := driver.

(* ===================================================================== *)
(** ** The SQL statements of the package *)
(* ===================================================================== *)

Definition markPending (r : Task) : Task :=
  {| ID := ID r; ClassName := ClassName r; SymbolName := SymbolName r;
     AssemblyCode := AssemblyCode r; Status := StatusPending;
     Retries := Retries r; DecompiledSource := DecompiledSource r;
     ErrorMessage := ErrorMessage r; CreatedAt := CreatedAt r;
     UpdatedAt := UpdatedAt r |}.

Definition markInFlight (now : Z) (r : Task) : Task :=
  {| ID := ID r; ClassName := ClassName r; SymbolName := SymbolName r;
     AssemblyCode := AssemblyCode r; Status := StatusInFlight;
     Retries := Retries r; DecompiledSource := DecompiledSource r;
     ErrorMessage := ErrorMessage r; CreatedAt := CreatedAt r;
     UpdatedAt := now |}.

Definition markCompleted (src : string) (now : Z) (r : Task) : Task :=
  {| ID := ID r; ClassName := ClassName r; SymbolName := SymbolName r;
     AssemblyCode := AssemblyCode r; Status := StatusCompleted;
     Retries := Retries r; DecompiledSource := Some src;
     ErrorMessage := ErrorMessage r; CreatedAt := CreatedAt r;
     UpdatedAt := now |}.

Definition markFailed (msg : string) (retryCount : Z) (now : Z) (r : Task) : Task :=
  {| ID := ID r; ClassName := ClassName r; SymbolName := SymbolName r;
     AssemblyCode := AssemblyCode r; Status := StatusFailed;
     Retries := retryCount; DecompiledSource := DecompiledSource r;
     ErrorMessage := Some msg; CreatedAt := CreatedAt r;
     UpdatedAt := now |}.

(** [UPDATE decompilation_tasks SET ... WHERE cond] *)
Definition sql_update (cond : Task -> bool) (set : Task -> Task)
    (rows : list Task) : list Task :=
  map (fun r => if cond r then set r else r) rows.

(** [LIMIT n]: a negative limit means no limit. *)
Definition sql_limit {A : Type} (n : Z) (l : list A) : list A :=
  if n <? 0 then l else take (Z.to_nat n) l.

(** [SELECT ... FROM decompilation_tasks WHERE cond LIMIT n], a scan in
    rowid order. *)
Definition sql_select (cond : Task -> bool) (n : Z) (rows : list Task) : list Task :=
  sql_limit n (List.filter cond rows).

(** [CHECK(status IN ('pending', 'in_flight', 'completed', 'failed'))] *)
Definition check_status (st : string) : bool :=
  String.eqb st "pending" || String.eqb st "in_flight"
  || String.eqb st "completed" || String.eqb st "failed".

(** [UNIQUE(class_name, symbol_name)] *)
Definition same_key (c s : string) (r : Task) : bool :=
  String.eqb (ClassName r) c && String.eqb (SymbolName r) s.

(** AUTOINCREMENT: one more than the largest rowid ever used. *)
Definition max_rowid (rows : list Task) : Z :=
  fold_right (fun r m => Z.max (ID r) m) 0 rows.

Definition next_rowid (rows : list Task) (seq : Z) : Z :=
  Z.max (max_rowid rows) seq + 1.

(** [INSERT OR IGNORE INTO decompilation_tasks
       (class_name, symbol_name, assembly_code, status) VALUES (?, ?, ?, ?)]:
    the row is skipped when it violates the CHECK or the UNIQUE constraint;
    the columns not listed take their defaults. *)
Definition sql_insert_or_ignore (c s a st : string) (now : Z)
    (tbl : list Task * Z) : list Task * Z :=
  let (rows, seq) := tbl in
  if negb (check_status st) then (rows, seq)
  else if existsb (same_key c s) rows then (rows, seq)
  else
    let id := next_rowid rows seq in
    (rows ++ [ {| ID := id; ClassName := c; SymbolName := s;
                  AssemblyCode := a; Status := st; Retries := 0;
                  DecompiledSource := None; ErrorMessage := None;
                  CreatedAt := now; UpdatedAt := now |} ],
     id).

(* ===================================================================== *)
(** ** The task store *)
(* ===================================================================== *)

(** The database file before it is opened: [None] when the table does not
    exist yet. *)
Definition dbfile : Type := option (list Task * Z).

(** [CREATE TABLE IF NOT EXISTS decompilation_tasks (...)] *)
Definition initSchema (file : dbfile) : list Task * Z :=
  match file with
  | Some tbl => tbl
  | None => ([], 0)
  end.

(** [NewTaskStore]: [sql.Open], [db.Ping], [initSchema]. *)
Definition NewTaskStore (file : dbfile) (fl : nat -> bool) (ck : nat -> Z)
    : world + error :=
  if fl 0%nat then inr (Wrapped "failed to open database")
  else if fl 1%nat then inr (Wrapped "failed to connect to database")
  else if fl 2%nat then inr (Wrapped "failed to initialize schema")
  else inl {| disk := fst (initSchema file); autoinc := snd (initSchema file);
              tick := 3; failing := fl; clock := ck; trace := [] |}.

(** [ResetInFlightTasks] *)
Definition ResetInFlightTasks : M (option error) :=
  ok <~ exec (fun _ tbl =>
                (sql_update (fun r => String.eqb (Status r) StatusInFlight)
                            markPending (fst tbl), snd tbl)) ;;
  ret (if ok then None else Some (Wrapped "failed to reset in_flight tasks")).

(** The loop of [AddTasks]: one [stmt.ExecContext] per task. *)
Fixpoint addLoop (tasks : list Task) : M (option error) :=
  match tasks with
  | [] => ret None
  | task :: rest =>
      ok <~ exec (sql_insert_or_ignore (ClassName task) (SymbolName task)
                    (AssemblyCode task) StatusPending) ;;
      if ok then addLoop rest
      else ret (Some (Wrapped (String.append "failed to execute statement for task " (SymbolName task))))
  end.

(** [AddTasks]; every return after [BeginTx] runs the deferred
    [tx.Rollback()], which undoes the transaction unless it committed. *)
Definition AddTasks (tasks : list Task) : M (option error) :=
  tx <~ BeginTx ;;
  match tx with
  | None => ret (Some (Wrapped "failed to begin transaction"))
  | Some snap =>
      prepared <~ driver ;;
      if negb prepared then
        Rollback snap ;;; ret (Some (Wrapped "failed to prepare statement"))
      else
        e <~ addLoop tasks ;;
        match e with
        | Some err => Rollback snap ;;; ret (Some err)
        | None =>
            committed <~ Commit ;;
            if committed then ret None
            else Rollback snap ;;; ret (Some DriverError)
        end
  end.

(** [rows.Scan(&task.ID, ..., &task.UpdatedAt)] into a fresh [Task]: the
    two nullable columns are not selected and keep their zero value. *)
Definition scanTask (r : Task) : Task :=
  {| ID := ID r; ClassName := ClassName r; SymbolName := SymbolName r;
     AssemblyCode := AssemblyCode r; Status := Status r;
     Retries := Retries r; DecompiledSource := None;
     ErrorMessage := None; CreatedAt := CreatedAt r;
     UpdatedAt := UpdatedAt r |}.

(** [for rows.Next() { ... rows.Scan ... }] *)
Fixpoint scanRows (rows : list Task) : M (option (list Task)) :=
  match rows with
  | [] => ret (Some [])
  | r :: rest =>
      ok <~ driver ;;
      if ok then
        tl <~ scanRows rest ;;
        ret (match tl with Some ts => Some (scanTask r :: ts) | None => None end)
      else ret None
  end.

Definition is_pending (r : Task) : bool := String.eqb (Status r) StatusPending.

Definition id_in (ids : list Z) (r : Task) : bool :=
  existsb (Z.eqb (ID r)) ids.

(** [FetchPendingBatch] *)
Definition FetchPendingBatch (batchSize : Z) : M (list Task * option error) :=
  tx <~ BeginTx ;;
  match tx with
  | None => ret ([], Some (Wrapped "failed to begin transaction"))
  | Some snap =>
      q <~ query (sql_select is_pending batchSize) ;;
      match q with
      | None => Rollback snap ;;; ret ([], Some (Wrapped "failed to query pending tasks"))
      | Some rows =>
          scanned <~ scanRows rows ;;
          match scanned with
          | None => Rollback snap ;;; ret ([], Some (Wrapped "failed to scan task row"))
          | Some tasks =>
              iterated <~ driver ;;
              if negb iterated then
                Rollback snap ;;; ret ([], Some (Wrapped "error during rows iteration"))
              else if (length tasks =? 0)%nat then
                Rollback snap ;;; ret ([], None)
              else
                let taskIDs := map ID tasks in
                updated <~ exec (fun now tbl =>
                                   (sql_update (id_in taskIDs) (markInFlight now) (fst tbl),
                                    snd tbl)) ;;
                if negb updated then
                  Rollback snap ;;;
                  ret ([], Some (Wrapped "failed to update task statuses to in_flight"))
                else
                  committed <~ Commit ;;
                  if committed then ret (tasks, None)
                  else Rollback snap ;;;
                       ret ([], Some (Wrapped "failed to commit transaction"))
          end
      end
  end.

(** [UpdateTaskSuccess] *)
Definition UpdateTaskSuccess (taskID : Z) (decompiledSource : string)
    : M (option error) :=
  ok <~ exec (fun now tbl =>
                (sql_update (fun r => ID r =? taskID)
                            (markCompleted decompiledSource now) (fst tbl),
                 snd tbl)) ;;
  ret (if ok then None else Some (Wrapped "failed to update task as successful")).

(** [UpdateTaskFailure] *)
Definition UpdateTaskFailure (taskID : Z) (errorMessage : string) (retryCount : Z)
    : M (option error) :=
  ok <~ exec (fun now tbl =>
                (sql_update (fun r => ID r =? taskID)
                            (markFailed errorMessage retryCount now) (fst tbl),
                 snd tbl)) ;;
  ret (if ok then None else Some (Wrapped "failed to update task as failed")).

(** [GetProgress] *)
Definition GetProgress : M ((Z * Z) * option error) :=
  c <~ query (fun rows =>
                Z.of_nat (length (List.filter
                  (fun r => String.eqb (Status r) StatusCompleted) rows))) ;;
  match c with
  | None => ret ((0, 0), Some (Wrapped "failed to count completed tasks"))
  | Some completed =>
      t <~ query (fun rows => Z.of_nat (length rows)) ;;
      match t with
      | None => ret ((0, 0), Some (Wrapped "failed to count total tasks"))
      | Some total => ret ((completed, total), None)
      end
  end.

(* ===================================================================== *)
(** ** encoding/json, as far as [formatPrompt] uses it *)
(* ===================================================================== *)

Module Json.

(** The Go values [json.Marshal] can be handed.  It fails on channels,
    functions and complex numbers (unsupported type) and on NaN or
    infinite floats (unsupported value); strings, structs and slices of
    supported values always encode. *)
#[local] Unset Elimination Schemes.
Inductive value : Type :=
| VString (s : string)
| VFloat (finite : bool) (digits : string)
| VSlice (elems : list value)
| VStruct (fields : list (string * value))
| VUnsupported (kind : string).
#[local] Set Elimination Schemes.

Definition nl : string := String "010"%char EmptyString.

Fixpoint indentOf (depth : nat) : string :=
  match depth with
  | O => EmptyString
  | S d => String.append "  " (indentOf d)
  end.

Fixpoint join (sep : string) (items : list string) : string :=
  match items with
  | [] => EmptyString
  | [s] => s
  | s :: rest => String.append s (String.append sep (join sep rest))
  end.

Definition bracket (opening closing : string) (depth : nat) (items : list string) : string :=
  match items with
  | [] => String.append opening closing
  | _ =>
      let inner := String.append nl (indentOf (S depth)) in
      String.append opening
        (String.append inner
           (String.append (join (String.append "," inner) items)
              (String.append nl (String.append (indentOf depth) closing))))
  end.

(** Encode the elements of a slice or the fields of a struct in order; the
    first failure is the failure of the whole. *)
Fixpoint collect {A : Type} (enc : A -> string + string) (l : list A)
    : list string + string :=
  match l with
  | [] => inl []
  | x :: rest =>
      match enc x with
      | inr err => inr err
      | inl s =>
          match collect enc rest with
          | inr err => inr err
          | inl ss => inl (s :: ss)
          end
      end
  end.

Section Encode.

(** The escaping of a Go string into a quoted JSON string literal; it is
    defined on every byte string (invalid UTF-8 is replaced, not refused). *)
Variable appendString : string -> string.

(** [json.MarshalIndent] with an empty prefix and a two-space indent,
    below nesting depth [depth]. *)
Fixpoint encode (depth : nat) (v : value) {struct v} : string + string :=
  match v with
  | VString s => inl (appendString s)
  | VFloat finite digits =>
      if finite then inl digits else inr "json: unsupported value"
  | VUnsupported kind => inr (String.append "json: unsupported type: " kind)
  | VSlice elems =>
      match collect (encode (S depth)) elems with
      | inr err => inr err
      | inl ss => inl (bracket "[" "]" depth ss)
      end
  | VStruct fields =>
      match collect (fun field : string * value =>
                       let (name, e) := field in
                       match encode (S depth) e with
                       | inr err => inr err
                       | inl s =>
                           inl (String.append (appendString name)
                                  (String.append ": " s))
                       end) fields with
      | inr err => inr err
      | inl ss => inl (bracket "{" "}" depth ss)
      end
  end.

Definition MarshalIndent (v : value) : string + string := encode 0 v.

End Encode.

End Json.

(* ===================================================================== *)
(** ** The worker *)
(* ===================================================================== *)

Section Worker.

(** encoding/json's string escaper. *)
Variable appendString : string -> string.

(** The remote model: what [callLiteLLM(ctx, apiURL, model, prompt)]
    returns when it is called at a given moment, either the parsed
    outcomes or the text of its error. *)
Variable callLiteLLM : nat -> string -> string -> string -> list DecompiledResult + string.

(** [ctx.Done()]: has shutdown been signalled at a given moment? *)
Variable ctxDone : nat -> bool.

Definition preamble : string :=
  "Please decompile the following Objective-C methods. Return a JSON array where each object has 'symbol_name', 'decompiled_source', 'success', and 'error_message' fields.".

(** [methods[i] = Method{SymbolName: ..., AssemblyCode: ...}] *)
Definition methodOf (task : Task) : Json.value :=
  Json.VStruct [ ("symbol_name", Json.VString (SymbolName task));
                 ("assembly_code", Json.VString (AssemblyCode task)) ].

(** [formatPrompt]: the prompt and the error, as Go returns them. *)
Definition formatPrompt (tasks : list Task) : string * option string :=
  let prompt := String.append preamble (String.append Json.nl Json.nl) in
  let methods := map methodOf tasks in
  match Json.MarshalIndent appendString (Json.VSlice methods) with
  | inr err => (EmptyString, Some (String.append "failed to marshal tasks to JSON: " err))
  | inl jsonData => (String.append prompt jsonData, None)
  end.

Inductive control : Type := Continue | Return.

(** [taskMap[task.SymbolName] = task] for every task of the batch. *)
Definition buildTaskMap (tasks : list Task) : gmap string Task :=
  foldl (fun m task => <[SymbolName task := task]> m) ∅ tasks.

(** The batch-wide failure after a failed model call. *)
Definition failTransport (maxRetries : Z) (msg : string) (task : Task) : M unit :=
  if Retries task <? maxRetries then
    UpdateTaskFailure (ID task) msg (add64 (Retries task) 1) ;;; ret tt
  else
    UpdateTaskFailure (ID task) "Max retries exceeded" (Retries task) ;;; ret tt.

(** The batch-wide failure after a failed [formatPrompt]. *)
Definition failFormat (task : Task) : M unit :=
  UpdateTaskFailure (ID task) "Failed to format prompt" (add64 (Retries task) 1) ;;; ret tt.

(** The body of [for _, result := range results]. *)
Definition applyResult (taskMap : gmap string Task) (result : DecompiledResult) : M unit :=
  match taskMap !! rSymbolName result with
  | None => log (LogUnknownSymbol (rSymbolName result))
  | Some task =>
      if rSuccess result then
        err <~ UpdateTaskSuccess (ID task) (rDecompiledSource result) ;;
        match err with
        | Some e => log (LogUpdateSuccessFailed (ID task) e)
        | None => ret tt
        end
      else
        log (LogAIFailed (rSymbolName result) (rErrorMessage result)) ;;;
        err <~ UpdateTaskFailure (ID task) (rErrorMessage result) (Retries task) ;;
        match err with
        | Some e => log (LogUpdateFailureFailed (ID task) e)
        | None => ret tt
        end
  end.

Definition applyResults (tasks : list Task) (results : list DecompiledResult) : M unit :=
  forEach results (applyResult (buildTaskMap tasks)).

(** One turn of the [for { select { ... } }] loop of [DecompileWorker]. *)
Definition iteration (litellmURL model : string) (batchSize maxRetries : Z) : M control :=
  fun w =>
  if ctxDone (tick w) then (log LogShutdown ;;; ret Return) w
  else
   (fetched <~ FetchPendingBatch batchSize ;;
    match fetched with
    | (_, Some err) =>
        log (LogFetchError err) ;;; log (Sleep 5) ;;; ret Continue
    | (tasks, None) =>
        if (length tasks =? 0)%nat then
          log LogNoMoreTasks ;;; ret Return
        else
          log (LogProcessing (length tasks)) ;;;
          match formatPrompt tasks with
          | (_, Some err) =>
              log (LogFormatPromptFailed err) ;;;
              forEach tasks failFormat ;;;
              ret Continue
          | (prompt, None) =>
              fun w' =>
              match callLiteLLM (tick w') litellmURL model prompt with
              | inr err =>
                  (log (LogAICallFailed err) ;;;
                   forEach tasks (failTransport maxRetries err) ;;;
                   ret Continue) w'
              | inl results =>
                  (applyResults tasks results ;;; ret Continue) w'
              end
          end
    end) w.

(** The [for] loop of [DecompileWorker], cut after [fuel] turns: [true]
    when the loop has been left by a [return]. *)
Fixpoint workerLoop (fuel : nat) (litellmURL model : string)
    (batchSize maxRetries : Z) : M bool :=
  match fuel with
  | O => ret false
  | S fuel' =>
      c <~ iteration litellmURL model batchSize maxRetries ;;
      match c with
      | Return => ret true
      | Continue => workerLoop fuel' litellmURL model batchSize maxRetries
      end
  end.

(** [DecompileWorker]: the loop between the two log lines; the deferred
    "finished" line is written when the function returns. *)
Definition DecompileWorker (fuel : nat) (litellmURL model : string)
    (batchSize maxRetries : Z) : M bool :=
  log LogStarted ;;;
  returned <~ workerLoop fuel litellmURL model batchSize maxRetries ;;
  if returned then log LogFinished ;;; ret true else ret false.

End Worker.

(* ===================================================================== *)
(** ** Concurrent calls of [FetchPendingBatch] *)
(* ===================================================================== *)

(** Several goroutines call [FetchPendingBatch] on one store.  Each call is
    a transaction of its own connection, and its statements interleave with
    those of the other calls.  The database is SQLite with a rollback
    journal: a transaction takes the SHARED lock with its first read and
    keeps it until it ends, takes the RESERVED lock with its first write
    (refused while another transaction holds it), writes into a private
    copy, and can commit only when no other transaction holds SHARED.  A
    call may also fail at any moment (busy, cancelled context, driver
    error); its deferred [tx.Rollback()] then drops its locks and its
    private copy. *)
Module Concurrent.

Inductive call : Type :=
| Begun (batchSize : Z)
    (* BeginTx done; no lock *)
| Selected (tasks : list Task)
    (* rows selected and scanned; SHARED *)
| Updated (tasks : list Task) (work : list Task)
    (* UPDATE done in the private copy [work]; SHARED and RESERVED *)
| Returned (tasks : list Task) (err : option error).
    (* the call has returned; no lock *)

Record state : Type := State {
  table : list Task;   (* the committed rows *)
  calls : list call    (* one entry per goroutine *)
}.

Definition holds_shared (c : call) : bool :=
  match c with
  | Selected _ | Updated _ _ => true
  | _ => false
  end.

Definition holds_reserved (c : call) : bool :=
  match c with
  | Updated _ _ => true
  | _ => false
  end.

(** The calls of the goroutines other than [i]. *)
Definition others (i : nat) (cs : list call) : list call :=
  take i cs ++ drop (S i) cs.

Inductive action : Type :=
| Select (i : nat)             (* goroutine i runs its SELECT and scans *)
| Update (i : nat) (now : Z)   (* goroutine i runs its UPDATE *)
| CommitTx (i : nat)           (* goroutine i commits and returns *)
| Abort (i : nat) (e : error). (* goroutine i fails and returns *)

Definition fire (a : action) (s : state) : option state :=
  match a with
  | Select i =>
      match calls s !! i with
      | Some (Begun n) =>
          let tasks := map scanTask (sql_select is_pending n (table s)) in
          let c := if (length tasks =? 0)%nat then Returned [] None
                   else Selected tasks in
          Some {| table := table s; calls := <[i := c]> (calls s) |}
      | _ => None
      end
  | Update i now =>
      match calls s !! i with
      | Some (Selected tasks) =>
          if existsb holds_reserved (others i (calls s)) then None
          else
            let work := sql_update (id_in (map ID tasks)) (markInFlight now) (table s) in
            Some {| table := table s; calls := <[i := Updated tasks work]> (calls s) |}
      | _ => None
      end
  | CommitTx i =>
      match calls s !! i with
      | Some (Updated tasks work) =>
          if existsb holds_shared (others i (calls s)) then None
          else Some {| table := work; calls := <[i := Returned tasks None]> (calls s) |}
      | _ => None
      end
  | Abort i e =>
      match calls s !! i with
      | Some (Returned _ _) | None => None
      | Some _ =>
          Some {| table := table s; calls := <[i := Returned [] (Some e)]> (calls s) |}
      end
  end.

(** A schedule is the list of actions in the order they take effect. *)
Fixpoint run (schedule : list action) (s : state) : option state :=
  match schedule with
  | [] => Some s
  | a :: rest =>
      match fire a s with
      | Some s' => run rest s'
      | None => None
      end
  end.

(** All goroutines have begun their transaction and nothing else. *)
Definition start (rows : list Task) (batchSizes : list Z) : state :=
  {| table := rows; calls := map Begun batchSizes |}.

End Concurrent.
(* ===================================================================== *)
(** ** Vocabulary of the statements below *)
(* ===================================================================== *)

Definition count_status (st : TaskStatus) (rows : list Task) : nat :=
  length (List.filter (fun r => String.eqb (Status r) st) rows).

(** [r'] is [r] with another status, every other column untouched. *)
Definition same_but_status (r r' : Task) : Prop :=
  ID r' = ID r /\ ClassName r' = ClassName r /\ SymbolName r' = SymbolName r /\
  AssemblyCode r' = AssemblyCode r /\ Retries r' = Retries r /\
  DecompiledSource r' = DecompiledSource r /\ ErrorMessage r' = ErrorMessage r /\
  CreatedAt r' = CreatedAt r /\ UpdatedAt r' = UpdatedAt r.

(** What [ResetInFlightTasks] does to one row. *)
Definition reset_row (r r' : Task) : Prop :=
  same_but_status r r' /\
  Status r' = (if String.eqb (Status r) StatusInFlight then StatusPending else Status r).


(** What [UpdateTaskSuccess taskID src] at time [now] does to one row. *)
Definition completed_row (taskID : Z) (src : string) (now : Z) (r r' : Task) : Prop :=
  if ID r =? taskID then
    Status r' = StatusCompleted /\ DecompiledSource r' = Some src /\
    UpdatedAt r' = now /\
    ID r' = ID r /\ ClassName r' = ClassName r /\ SymbolName r' = SymbolName r /\
    AssemblyCode r' = AssemblyCode r /\ Retries r' = Retries r /\
    ErrorMessage r' = ErrorMessage r /\ CreatedAt r' = CreatedAt r
  else r' = r.

(** What [UpdateTaskFailure taskID msg retryCount] at time [now] does to
    one row. *)
Definition failed_row (taskID : Z) (msg : string) (retryCount : Z) (now : Z)
    (r r' : Task) : Prop :=
  if ID r =? taskID then
    Status r' = StatusFailed /\ ErrorMessage r' = Some msg /\
    Retries r' = retryCount /\ UpdatedAt r' = now /\
    ID r' = ID r /\ ClassName r' = ClassName r /\ SymbolName r' = SymbolName r /\
    AssemblyCode r' = AssemblyCode r /\
    DecompiledSource r' = DecompiledSource r /\ CreatedAt r' = CreatedAt r
  else r' = r.

(** Sample data: a row in flight and a store that always answers. *)
Definition exampleRow : Task :=
  {| ID := 1; ClassName := "Test"; SymbolName := "method1"; AssemblyCode := "...";
     Status := StatusInFlight; Retries := 0; DecompiledSource := None;
     ErrorMessage := None; CreatedAt := 10; UpdatedAt := 20 |}.

Definition exampleWorld (rows : list Task) : world :=
  {| disk := rows; autoinc := Z.of_nat (length rows); tick := 0;
     failing := fun _ => false; clock := fun k => 100 + Z.of_nat k; trace := [] |}.


(** The identity of a task: the columns of [UNIQUE(class_name, symbol_name)]. *)
Definition key (r : Task) : string * string := (ClassName r, SymbolName r).

(** The columns [AddTasks] reads from its input. *)
Definition same_payload (t t' : Task) : Prop :=
  ClassName t = ClassName t' /\ SymbolName t = SymbolName t' /\
  AssemblyCode t = AssemblyCode t'.

(** A row as [AddTasks] creates it from one of [tasks]. *)
Definition seeded_from (tasks : list Task) (r : Task) : Prop :=
  Status r = StatusPending /\ Retries r = 0 /\
  DecompiledSource r = None /\ ErrorMessage r = None /\
  Exists (same_payload r) tasks.

(** The inserts of [AddTasks] when no driver call fails, the first of them
    being driver call number [k]. *)
Fixpoint seed_rows (ck : nat -> Z) (k : nat) (tasks : list Task)
    (tbl : list Task * Z) : list Task * Z :=
  match tasks with
  | [] => tbl
  | task :: rest =>
      seed_rows ck (S k) rest
        (sql_insert_or_ignore (ClassName task) (SymbolName task)
           (AssemblyCode task) StatusPending (ck k) tbl)
  end.

(** A task as the seeding collaborator builds it:
    [&Task{ClassName: c, SymbolName: s, AssemblyCode: a}]. *)
Definition newTask (c s a : string) : Task :=
  {| ID := 0; ClassName := c; SymbolName := s; AssemblyCode := a;
     Status := EmptyString; Retries := 0; DecompiledSource := None;
     ErrorMessage := None; CreatedAt := 0; UpdatedAt := 0 |}.


(** A batch naming the same (class, symbol) twice. *)
Definition repeatedBatch : list Task :=
  [ newTask "Test" "method1" "..."; newTask "Test" "method1" "..." ].

(** No driver call fails. *)
Definition healthy (w : world) : Prop := forall k, failing w k = false.

(** What the UPDATE of [FetchPendingBatch] for the ids [ids] at time [now]
    does to one row. *)
Definition claimed_row (ids : list Z) (now : Z) (r r' : Task) : Prop :=
  if id_in ids r then
    Status r' = StatusInFlight /\ UpdatedAt r' = now /\
    ID r' = ID r /\ ClassName r' = ClassName r /\ SymbolName r' = SymbolName r /\
    AssemblyCode r' = AssemblyCode r /\ Retries r' = Retries r /\
    DecompiledSource r' = DecompiledSource r /\ ErrorMessage r' = ErrorMessage r /\
    CreatedAt r' = CreatedAt r
  else r' = r.

(** The row with the id of [t] is stored as in_flight. *)
Definition persisted_in_flight (rows : list Task) (t : Task) : Prop :=
  Exists (fun r => ID r = ID t /\ Status r = StatusInFlight) rows /\
  Forall (fun r => ID r = ID t -> Status r = StatusInFlight) rows.

(** Between two states of the table, only rows whose id is in [ids] may
    differ; rows are neither added nor removed nor renumbered. *)
Definition only_touches (ids : list Z) (rows rows' : list Task) : Prop :=
  Forall2 (fun r r' => ID r' = ID r /\ (ID r ∉ ids -> r' = r)) rows rows'.

(** Between two states of the table, rows that were not pending are the
    same, and rows are neither added nor removed nor renumbered. *)
Definition settled_rows_kept (rows rows' : list Task) : Prop :=
  Forall2 (fun r r' => ID r' = ID r /\ (Status r <> StatusPending -> r' = r)) rows rows'.

(** [SELECT ... WHERE id = ?] on a table whose ids are unique. *)
Definition row_of (id : Z) (rows : list Task) : option Task :=
  List.find (fun r => ID r =? id) rows.

(** A log line other than "failed to format prompt". *)
Definition not_format_failure (e : event) : Prop :=
  match e with
  | LogFormatPromptFailed _ => False
  | _ => True
  end.

(** [w'] extends the trace of [w] by lines other than "failed to format
    prompt". *)
Definition quiet (w w' : world) : Prop :=
  exists evs, trace w' = trace w ++ evs /\ Forall not_format_failure evs.

(** The batch-wide transport failure in the words of the specification:
    [fail(id, msg, task.retries+1)] below the retry cap,
    [fail(id, "Max retries exceeded", task.retries)] at or above it. *)
Definition fail_per_spec (maxRetries : Z) (msg : string) (task : Task) : M unit :=
  (if Retries task <? maxRetries
   then UpdateTaskFailure (ID task) msg (Retries task + 1)
   else UpdateTaskFailure (ID task) "Max retries exceeded" (Retries task)) ;;;
  ret tt.

(** The stored row of task [t] after the batch-wide failure with the
    model's error [msg] under the retry cap [maxRetries]. *)
Definition failed_in_transport (maxRetries : Z) (msg : string) (rows : list Task)
    (t : Task) : Prop :=
  exists r,
    row_of (ID t) rows = Some r /\ Status r = StatusFailed /\
    if Retries t <? maxRetries
    then ErrorMessage r = Some msg /\ Retries r = Retries t + 1
    else ErrorMessage r = Some "Max retries exceeded" /\ Retries r = Retries t.


Definition pendingRow (id : Z) (symbol : string) (retries : Z) : Task :=
  {| ID := id; ClassName := "Test"; SymbolName := symbol; AssemblyCode := "...";
     Status := StatusPending; Retries := retries; DecompiledSource := None;
     ErrorMessage := None; CreatedAt := 10; UpdatedAt := 10 |}.

Definition completedRow (id : Z) (symbol : string) : Task :=
  {| ID := id; ClassName := "Test"; SymbolName := symbol; AssemblyCode := "...";
     Status := StatusCompleted; Retries := 0; DecompiledSource := Some "done";
     ErrorMessage := None; CreatedAt := 10; UpdatedAt := 30 |}.

(** A model that is down, one that answers twice for the same symbol, and
    a context that is never cancelled. *)
Definition modelDown : nat -> string -> string -> string -> list DecompiledResult + string :=
  fun _ _ _ _ => inr "LiteLLM API returned non-200 status".

Definition okThenFailed : list DecompiledResult :=
  [ {| rSymbolName := "method1"; rDecompiledSource := "- (void)method1 {}";
       rSuccess := true; rErrorMessage := EmptyString |};
    {| rSymbolName := "method1"; rDecompiledSource := EmptyString;
       rSuccess := false; rErrorMessage := "cannot decompile" |} ].

Definition modelRepeats : nat -> string -> string -> string -> list DecompiledResult + string :=
  fun _ _ _ _ => inl okThenFailed.

Definition neverDone : nat -> bool := fun _ => false.

Definition quoteString (s : string) : string :=
  String "034"%char (String.append s (String "034"%char EmptyString)).

(** Some row with this id is pending. *)
Definition has_pending (rows : list Task) (id : Z) : Prop :=
  exists r, r ∈ rows /\ ID r = id /\ Status r = StatusPending.

(** Two returned batches share no task id. *)
Definition disjoint_ids (tasks1 tasks2 : list Task) : Prop :=
  forall id, id ∈ map ID tasks1 -> id ∉ map ID tasks2.

(** What holds of a call of [FetchPendingBatch] in progress, against the
    committed rows: the rows it has read are still pending, its private
    copy is the committed table with its UPDATE applied, and the rows it
    has returned are not pending. *)
Definition call_ok (rows : list Task) (c : Concurrent.call) : Prop :=
  match c with
  | Concurrent.Begun _ => True
  | Concurrent.Selected tasks => Forall (has_pending rows) (map ID tasks)
  | Concurrent.Updated tasks work =>
      Forall (has_pending rows) (map ID tasks) /\
      exists now, work = sql_update (id_in (map ID tasks)) (markInFlight now) rows
  | Concurrent.Returned tasks _ => Forall (fun id => ~ has_pending rows id) (map ID tasks)
  end.

Definition returned_disjoint (cs : list Concurrent.call) : Prop :=
  forall i j ti ei tj ej,
    i <> j ->
    cs !! i = Some (Concurrent.Returned ti ei) ->
    cs !! j = Some (Concurrent.Returned tj ej) ->
    disjoint_ids ti tj.

Definition claims_invariant (s : Concurrent.state) : Prop :=
  (forall i c, Concurrent.calls s !! i = Some c -> call_ok (Concurrent.table s) c) /\
  returned_disjoint (Concurrent.calls s).

(** The test of the package: four tasks, two goroutines claiming two each. *)
Definition fourPending : list Task :=
  [ pendingRow 1 "method1" 0; pendingRow 2 "method2" 0;
    pendingRow 3 "method3" 0; pendingRow 4 "method4" 0 ].

(** Both goroutines read before either writes; the second is refused the
    RESERVED lock and fails, the first commits. *)
Definition racingSchedule : list Concurrent.action :=
  [ Concurrent.Select 0; Concurrent.Select 1; Concurrent.Update 0 200;
    Concurrent.Abort 1 (Wrapped "failed to update task statuses to in_flight");
    Concurrent.CommitTx 0 ].

(** One goroutine after the other. *)
Definition serialSchedule : list Concurrent.action :=
  [ Concurrent.Select 0; Concurrent.Update 0 200; Concurrent.CommitTx 0;
    Concurrent.Select 1; Concurrent.Update 1 201; Concurrent.CommitTx 1 ].

(** The statements of one call that meets no failure, in order: it stops
    after the SELECT when it has read no row. *)
Definition soloSchedule (tasks : list Task) (now : Z) : list Concurrent.action :=
  match tasks with
  | [] => [ Concurrent.Select 0 ]
  | _ => [ Concurrent.Select 0; Concurrent.Update 0 now; Concurrent.CommitTx 0 ]
  end.
(* ===================================================================== *)
(** ** The store: statements *)
(* ===================================================================== *)

Lemma sql_update_length (cond : Task -> bool) (set : Task -> Task) rows :
  length (sql_update cond set rows) = length rows.
Proof. unfold sql_update. apply length_map. Qed.

Lemma sql_update_Forall2 (R : Task -> Task -> Prop) (cond : Task -> bool)
    (set : Task -> Task) rows :
  (forall r, R r (if cond r then set r else r)) ->
  Forall2 R rows (sql_update cond set rows).
Proof.
  intros HR. induction rows as [|r rows IH]; simpl; constructor; auto.
Qed.

Lemma reset_row_markPending r :
  reset_row r (if String.eqb (Status r) StatusInFlight then markPending r else r).
Proof.
  unfold reset_row, same_but_status.
  destruct (String.eqb (Status r) StatusInFlight); simpl; repeat split; reflexivity.
Qed.

Lemma count_reset_pending rows :
  count_status StatusPending
    (sql_update (fun r => String.eqb (Status r) StatusInFlight) markPending rows)
  = (count_status StatusPending rows + count_status StatusInFlight rows)%nat.
Proof.
  unfold count_status, sql_update.
  induction rows as [|r rows IH]; simpl; [reflexivity|].
  destruct (String.eqb (Status r) StatusInFlight) eqn:Hf.
  - apply String.eqb_eq in Hf. rewrite Hf. simpl. rewrite IH. lia.
  - destruct (String.eqb (Status r) StatusPending); simpl; rewrite IH; lia.
Qed.

Lemma count_reset_in_flight rows :
  count_status StatusInFlight
    (sql_update (fun r => String.eqb (Status r) StatusInFlight) markPending rows) = 0%nat.
Proof.
  unfold count_status, sql_update.
  induction rows as [|r rows IH]; simpl; [reflexivity|].
  destruct (String.eqb (Status r) StatusInFlight) eqn:Hf; simpl.
  - exact IH.
  - rewrite Hf. exact IH.
Qed.

Lemma count_reset_other st rows :
  String.eqb st StatusPending = false ->
  String.eqb st StatusInFlight = false ->
  count_status st
    (sql_update (fun r => String.eqb (Status r) StatusInFlight) markPending rows)
  = count_status st rows.
Proof.
  intros Hp Hf. unfold count_status, sql_update.
  induction rows as [|r rows IH]; [reflexivity|].
  cbn [map List.filter].
  assert (Hrow : String.eqb
            (Status (if String.eqb (Status r) StatusInFlight then markPending r else r)) st
          = String.eqb (Status r) st).
  { destruct (String.eqb_spec (Status r) StatusInFlight) as [Hr|Hr].
    - cbn [markPending Status]. rewrite Hr.
      rewrite (String.eqb_sym StatusPending st), Hp.
      rewrite (String.eqb_sym StatusInFlight st), Hf. reflexivity.
    - reflexivity. }
  rewrite Hrow. destruct (String.eqb (Status r) st); cbn [length]; rewrite IH; reflexivity.
Qed.

(** C7. [ResetInFlightTasks] is one UPDATE statement: when the driver
    accepts it, every row that was in_flight becomes pending, every other
    row and every other column stay as they were, so the pending rows grow
    by the number of in_flight rows and no in_flight row is left; when the
    driver refuses it, no row changes.  In particular, reopening with
    [NewTaskStore] a database file left with K in_flight rows and calling
    [ResetInFlightTasks] yields K more pending rows. *)
Theorem ResetInFlightTasks_requeues_in_flight :
  (forall w : world,
     let '(err, w') := ResetInFlightTasks w in
     match err with
     | None =>
         failing w (tick w) = false /\
         Forall2 reset_row (disk w) (disk w') /\
         autoinc w' = autoinc w /\
         count_status StatusPending (disk w')
           = (count_status StatusPending (disk w) + count_status StatusInFlight (disk w))%nat /\
         count_status StatusInFlight (disk w') = 0%nat /\
         count_status StatusCompleted (disk w') = count_status StatusCompleted (disk w) /\
         count_status StatusFailed (disk w') = count_status StatusFailed (disk w)
     | Some e =>
         failing w (tick w) = true /\
         e = Wrapped "failed to reset in_flight tasks" /\
         disk w' = disk w /\ autoinc w' = autoinc w
     end) /\
  (forall (rows : list Task) (seq : Z) (fl : nat -> bool) (ck : nat -> Z),
     match NewTaskStore (Some (rows, seq)) fl ck with
     | inr _ => fl 0%nat || fl 1%nat || fl 2%nat = true
     | inl w =>
         disk w = rows /\
         let '(err, w') := ResetInFlightTasks w in
         match err with
         | None =>
             count_status StatusPending (disk w')
               = (count_status StatusPending rows + count_status StatusInFlight rows)%nat /\
             count_status StatusInFlight (disk w') = 0%nat
         | Some _ => fl 3%nat = true /\ disk w' = rows
         end
     end).
Proof.
  assert (Hgen : forall w : world,
     let '(err, w') := ResetInFlightTasks w in
     match err with
     | None =>
         failing w (tick w) = false /\
         Forall2 reset_row (disk w) (disk w') /\
         autoinc w' = autoinc w /\
         count_status StatusPending (disk w')
           = (count_status StatusPending (disk w) + count_status StatusInFlight (disk w))%nat /\
         count_status StatusInFlight (disk w') = 0%nat /\
         count_status StatusCompleted (disk w') = count_status StatusCompleted (disk w) /\
         count_status StatusFailed (disk w') = count_status StatusFailed (disk w)
     | Some e =>
         failing w (tick w) = true /\
         e = Wrapped "failed to reset in_flight tasks" /\
         disk w' = disk w /\ autoinc w' = autoinc w
     end).
  { intros w. unfold ResetInFlightTasks, bind, exec, ret.
    destruct (failing w (tick w)) eqn:Hf; simpl.
    - repeat split; reflexivity.
    - split; [reflexivity|]. split.
      { apply sql_update_Forall2. intros r. apply reset_row_markPending. }
      split; [reflexivity|].
      split; [apply count_reset_pending|].
      split; [apply count_reset_in_flight|].
      split; apply count_reset_other; reflexivity. }
  split; [exact Hgen|].
  intros rows seq fl ck. unfold NewTaskStore.
  destruct (fl 0%nat) eqn:H0; [reflexivity|].
  destruct (fl 1%nat) eqn:H1; [reflexivity|].
  destruct (fl 2%nat) eqn:H2; [reflexivity|].
  split; [reflexivity|].
  match goal with |- context [ResetInFlightTasks ?w] => specialize (Hgen w) end.
  destruct (ResetInFlightTasks _) as [err w'].
  destruct err as [e|].
  - destruct Hgen as (Hf & _ & Hd & _). simpl in *. split; assumption.
  - destruct Hgen as (_ & _ & _ & Hp & Hi & _). simpl in *. split; assumption.
Qed.

(* --------------------------------------------------------------------- *)
(** *** Terminal updates *)
(* --------------------------------------------------------------------- *)

Lemma sql_update_none (cond : Task -> bool) (set : Task -> Task) rows :
  Forall (fun r => cond r = false) rows -> sql_update cond set rows = rows.
Proof.
  unfold sql_update. induction 1 as [|r rows Hr _ IH]; simpl; [reflexivity|].
  rewrite Hr, IH. reflexivity.
Qed.

Lemma UpdateTaskSuccess_run taskID src w :
  UpdateTaskSuccess taskID src w =
  if failing w (tick w)
  then (Some (Wrapped "failed to update task as successful"), next_tick w)
  else (None,
        next_tick (set_table
          (sql_update (fun r => ID r =? taskID) (markCompleted src (clock w (tick w))) (disk w))
          (autoinc w) w)).
Proof.
  unfold UpdateTaskSuccess, bind, exec, ret.
  destruct (failing w (tick w)); reflexivity.
Qed.

Lemma UpdateTaskFailure_run taskID msg retryCount w :
  UpdateTaskFailure taskID msg retryCount w =
  if failing w (tick w)
  then (Some (Wrapped "failed to update task as failed"), next_tick w)
  else (None,
        next_tick (set_table
          (sql_update (fun r => ID r =? taskID)
             (markFailed msg retryCount (clock w (tick w))) (disk w))
          (autoinc w) w)).
Proof.
  unfold UpdateTaskFailure, bind, exec, ret.
  destruct (failing w (tick w)); reflexivity.
Qed.

(** C8, as the code has it.  [UpdateTaskSuccess] is one UPDATE statement
    whose affected-row count is not inspected: when the driver accepts it,
    the call returns no error, every row with the given id becomes
    completed with the given source and the statement's timestamp, and
    every other row is untouched; in particular, when no row has the id the
    call still returns no error and the table is unchanged.  It returns an
    error only when the driver refuses the statement, and then no row
    changes. *)
Theorem UpdateTaskSuccess_completes_row (w : world) (taskID : Z) (src : string) :
  let '(err, w') := UpdateTaskSuccess taskID src w in
  match err with
  | None =>
      failing w (tick w) = false /\
      Forall2 (completed_row taskID src (clock w (tick w))) (disk w) (disk w') /\
      (Forall (fun r => ID r <> taskID) (disk w) -> disk w' = disk w)
  | Some e =>
      failing w (tick w) = true /\
      e = Wrapped "failed to update task as successful" /\
      disk w' = disk w
  end.
Proof.
  rewrite UpdateTaskSuccess_run.
  destruct (failing w (tick w)) eqn:Hf.
  - repeat split; reflexivity.
  - split; [reflexivity|]. split.
    + simpl. apply sql_update_Forall2. intros r. unfold completed_row.
      destruct (ID r =? taskID); [|reflexivity].
      simpl. repeat split; reflexivity.
    + intros Hno. simpl. apply sql_update_none.
      eapply Forall_impl; [exact Hno|]. intros r Hr. apply Z.eqb_neq. exact Hr.
Qed.

Lemma UpdateTaskSuccess_completes_row_witness :
  Forall (fun r => ID r <> 2) (disk (exampleWorld [exampleRow])) /\
  disk (snd (UpdateTaskSuccess 2 "src" (exampleWorld [exampleRow])))
    = disk (exampleWorld [exampleRow]).
Proof.
  assert (Hno : Forall (fun r => ID r <> 2) (disk (exampleWorld [exampleRow]))).
  { repeat constructor. simpl. lia. }
  split; [exact Hno|].
  pose proof (UpdateTaskSuccess_completes_row (exampleWorld [exampleRow]) 2 "src") as H.
  destruct (UpdateTaskSuccess 2 "src" (exampleWorld [exampleRow])) as [[e|] w'].
  - destruct H as (Hf & _). simpl in Hf. discriminate Hf.
  - destruct H as (_ & _ & H). simpl. exact (H Hno).
Defined.

(** Against C8 as stated: a terminal update naming an id that no row has
    returns no error at all (and changes nothing), so no UnknownTask error
    is ever produced. *)
Lemma UpdateTaskSuccess_unknown_id_returns_nil :
  Forall (fun r => ID r <> 2) (disk (exampleWorld [exampleRow])) /\
  fst (UpdateTaskSuccess 2 "src" (exampleWorld [exampleRow])) = None /\
  disk (snd (UpdateTaskSuccess 2 "src" (exampleWorld [exampleRow]))) = [exampleRow].
Proof.
  split; [|split]; [|reflexivity|reflexivity].
  repeat constructor. simpl. lia.
Qed.

(* --------------------------------------------------------------------- *)
(** *** Seeding *)
(* --------------------------------------------------------------------- *)

Lemma existsb_same_key c s rows :
  existsb (same_key c s) rows = true <-> (c, s) ∈ map key rows.
Proof.
  rewrite existsb_exists, list_elem_of_fmap. split.
  - intros (r & Hin & Hk). exists r. split; [|apply list_elem_of_In; exact Hin].
    unfold same_key in Hk. apply andb_true_iff in Hk as [Hc Hs].
    apply String.eqb_eq in Hc, Hs. unfold key. congruence.
  - intros (r & Hk & Hin). exists r. split; [apply list_elem_of_In; exact Hin|].
    unfold key in Hk. injection Hk as -> ->. unfold same_key.
    rewrite !String.eqb_refl. reflexivity.
Qed.

(** One insert either leaves the table alone (the key is taken) or appends
    one pending row carrying the three given columns. *)
Lemma sql_insert_or_ignore_cases c s a now rows seq :
  (((c, s) ∈ map key rows) /\
   sql_insert_or_ignore c s a StatusPending now (rows, seq) = (rows, seq)) \/
  (((c, s) ∉ map key rows) /\
   exists r seq',
     sql_insert_or_ignore c s a StatusPending now (rows, seq) = (rows ++ [r], seq') /\
     ClassName r = c /\ SymbolName r = s /\ AssemblyCode r = a /\
     Status r = StatusPending /\ Retries r = 0 /\
     DecompiledSource r = None /\ ErrorMessage r = None).
Proof.
  unfold sql_insert_or_ignore.
  change (negb (check_status StatusPending)) with false. cbv iota.
  destruct (existsb (same_key c s) rows) eqn:He.
  - left. split; [apply existsb_same_key; exact He | reflexivity].
  - right. split.
    + intros Hin. apply existsb_same_key in Hin. congruence.
    + eexists _, _. split; [reflexivity|]. simpl. repeat split; reflexivity.
Qed.

Lemma seed_rows_grows ck tasks : forall k rows seq,
  exists fresh seq',
    seed_rows ck k tasks (rows, seq) = (rows ++ fresh, seq') /\
    Forall (seeded_from tasks) fresh /\
    NoDup (map key fresh) /\
    Forall (fun r => key r ∉ map key rows) fresh /\
    Forall (fun t => key t ∈ map key (rows ++ fresh)) tasks.
Proof.
  induction tasks as [|t tasks IH]; intros k rows seq; cbn [seed_rows].
  - exists [], seq. rewrite app_nil_r. repeat split; constructor.
  - destruct (sql_insert_or_ignore_cases (ClassName t) (SymbolName t)
                (AssemblyCode t) (ck k) rows seq)
      as [[Hin ->] | [Hnin (r & seq1 & -> & Hc & Hs & Ha & Hst & Hre & Hds & Hem)]].
    + destruct (IH (S k) rows seq) as (fresh & seq' & -> & Hsf & Hnd & Hnew & Hall).
      exists fresh, seq'. split; [reflexivity|]. split; [|split; [|split]].
      * eapply Forall_impl; [exact Hsf|]. intros r (H1 & H2 & H3 & H4 & H5).
        repeat split; try assumption. apply Exists_cons_tl. exact H5.
      * exact Hnd.
      * exact Hnew.
      * constructor; [|exact Hall].
        rewrite map_app. apply elem_of_app. left. exact Hin.
    + destruct (IH (S k) (rows ++ [r]) seq1) as (fresh & seq' & -> & Hsf & Hnd & Hnew & Hall).
      assert (Hkr : key r = key t) by (unfold key; congruence).
      exists (r :: fresh), seq'. rewrite <- app_assoc. simpl.
      split; [reflexivity|]. split; [|split; [|split]].
      * constructor.
        -- repeat split; try assumption. apply Exists_cons_hd.
           repeat split; assumption.
        -- eapply Forall_impl; [exact Hsf|]. intros r' (H1 & H2 & H3 & H4 & H5).
           repeat split; try assumption. apply Exists_cons_tl. exact H5.
      * constructor; [|exact Hnd].
        intros Hin. apply list_elem_of_fmap in Hin as (r' & Hk' & Hin').
        rewrite Forall_forall in Hnew. apply (Hnew r' Hin').
        rewrite map_app. apply elem_of_app. right. simpl. rewrite <- Hk'.
        apply list_elem_of_here.
      * constructor.
        -- rewrite Hkr. exact Hnin.
        -- eapply Forall_impl; [exact Hnew|]. intros r' Hr' Hin. apply Hr'.
           rewrite map_app. apply elem_of_app. left. exact Hin.
      * rewrite <- app_assoc in Hall. simpl in Hall. constructor; [|exact Hall].
        rewrite map_app. apply elem_of_app. right. simpl. rewrite Hkr.
        apply list_elem_of_here.
Qed.

(** Seeding tasks whose keys are all present changes nothing. *)
Lemma seed_rows_present ck tasks : forall k rows seq,
  Forall (fun t => key t ∈ map key rows) tasks ->
  seed_rows ck k tasks (rows, seq) = (rows, seq).
Proof.
  induction tasks as [|t tasks IH]; intros k rows seq Hall; cbn [seed_rows]; [reflexivity|].
  inversion Hall as [|? ? Ht Hrest]; subst.
  destruct (sql_insert_or_ignore_cases (ClassName t) (SymbolName t)
              (AssemblyCode t) (ck k) rows seq)
    as [[_ ->] | [Hnin _]].
  - apply IH. exact Hrest.
  - exfalso. apply Hnin. exact Ht.
Qed.

Lemma addLoop_run tasks : forall w,
  let '(err, w') := addLoop tasks w in
  failing w' = failing w /\ clock w' = clock w /\ trace w' = trace w /\
  (err = None ->
   (disk w', autoinc w') = seed_rows (clock w) (tick w) tasks (disk w, autoinc w)).
Proof.
  induction tasks as [|t tasks IH]; intros w; cbn [addLoop seed_rows].
  - unfold ret. repeat split; reflexivity.
  - unfold bind, exec.
    destruct (failing w (tick w)) eqn:Hf.
    + unfold ret. simpl. repeat split; try reflexivity; try discriminate.
    + destruct (sql_insert_or_ignore _ _ _ _ _ (disk w, autoinc w)) as [rows seq] eqn:Hins.
      specialize (IH (next_tick (set_table rows seq w))).
      destruct (addLoop tasks _) as [err w']. simpl in IH.
      destruct IH as (H1 & H2 & H3 & H4). repeat split; assumption.
Qed.

(** [AddTasks] either commits all its inserts or leaves the table as it
    found it. *)
Lemma AddTasks_run tasks w :
  let '(err, w') := AddTasks tasks w in
  failing w' = failing w /\ clock w' = clock w /\ trace w' = trace w /\
  match err with
  | None =>
      (disk w', autoinc w')
        = seed_rows (clock w) (S (S (tick w))) tasks (disk w, autoinc w)
  | Some _ => disk w' = disk w /\ autoinc w' = autoinc w
  end.
Proof.
  unfold AddTasks, bind, BeginTx, driver, Commit, Rollback, ret.
  destruct (failing w (tick w)) eqn:Hb; simpl; [repeat split; reflexivity|].
  destruct (failing w (S (tick w))) eqn:Hp; simpl; [repeat split; reflexivity|].
  pose proof (addLoop_run tasks (next_tick (next_tick w))) as Hloop.
  destruct (addLoop tasks (next_tick (next_tick w))) as [[e|] w1];
    simpl in Hloop; destruct Hloop as (H1 & H2 & H3 & H4).
  - simpl. repeat split; assumption.
  - unfold driver. destruct (failing w1 (tick w1)) eqn:Hc; simpl.
    + repeat split; assumption.
    + repeat split; try assumption. apply H4. reflexivity.
Qed.




Lemma seeded_from_key tasks r :
  seeded_from tasks r -> key r ∈ map key tasks.
Proof.
  intros (_ & _ & _ & _ & Hex). apply Exists_exists in Hex as (t & Hin & Hc & Hs & _).
  apply list_elem_of_fmap. exists t. split; [unfold key; congruence | exact Hin].
Qed.

(** C6, as the code has it.  [AddTasks] is atomic: it either fails and
    leaves the table as it was, or commits, and then the rows already there
    are kept unchanged, one pending row is added for each (class, symbol)
    of the batch that was not there, and nothing is added for a key that is
    there already or that occurs earlier in the batch.  A second
    [AddTasks] of the same batch changes no row, whether it succeeds or
    not.  Starting from an empty table the two calls leave as many rows as
    the batch has distinct (class, symbol) keys: exactly the length of the
    batch when its keys are pairwise distinct. *)
Theorem AddTasks_twice_keeps_one_row_per_key (w : world) (tasks : list Task) :
  let '(e1, w1) := AddTasks tasks w in
  let '(e2, w2) := AddTasks tasks w1 in
  match e1 with
  | Some _ => disk w1 = disk w
  | None =>
      (exists fresh,
         disk w1 = disk w ++ fresh /\ NoDup (map key fresh) /\
         Forall (fun r => key r ∉ map key (disk w)) fresh /\
         Forall (seeded_from tasks) fresh) /\
      Forall (fun t => key t ∈ map key (disk w1)) tasks /\
      disk w2 = disk w1 /\
      (disk w = [] -> length (disk w2) = length (remove_dups (map key tasks))) /\
      (disk w = [] -> NoDup (map key tasks) -> length (disk w2) = length tasks)
  end.
Proof.
  pose proof (AddTasks_run tasks w) as Hrun1.
  destruct (AddTasks tasks w) as [e1 w1].
  pose proof (AddTasks_run tasks w1) as Hrun2.
  destruct (AddTasks tasks w1) as [e2 w2].
  destruct e1 as [e|].
  - destruct Hrun1 as (_ & _ & _ & Hd & _). exact Hd.
  - destruct Hrun1 as (_ & _ & _ & Hd).
    destruct (seed_rows_grows (clock w) tasks (S (S (tick w))) (disk w) (autoinc w))
      as (fresh & seq' & Hseed & Hsf & Hnd & Hnew & Hall).
    rewrite Hseed in Hd. injection Hd as Hd Hseq.
    assert (Hsame : disk w2 = disk w1).
    { destruct Hrun2 as (_ & _ & _ & H2). destruct e2 as [e|].
      - apply H2.
      - rewrite seed_rows_present in H2.
        + injection H2 as H2 _. exact H2.
        + rewrite Hd. exact Hall. }
    assert (Hkeys : disk w = [] -> forall k, k ∈ map key fresh <-> k ∈ map key tasks).
    { intros Hempty k. split.
      - intros Hk. apply list_elem_of_fmap in Hk as (r & -> & Hr).
        rewrite Forall_forall in Hsf. apply seeded_from_key, Hsf, Hr.
      - intros Hk. apply list_elem_of_fmap in Hk as (t & -> & Ht).
        rewrite Forall_forall in Hall. specialize (Hall t Ht).
        rewrite Hempty in Hall. exact Hall. }
    split; [exists fresh; repeat split; assumption|].
    split; [rewrite Hd; exact Hall|].
    split; [exact Hsame|].
    split.
    + intros Hempty. rewrite Hsame, Hd, Hempty. simpl.
      rewrite <- (length_map key fresh).
      apply Permutation_length, NoDup_Permutation.
      * exact Hnd.
      * apply NoDup_remove_dups.
      * intros k. rewrite elem_of_remove_dups. apply Hkeys, Hempty.
    + intros Hempty Hdistinct. rewrite Hsame, Hd, Hempty. simpl.
      rewrite <- (length_map key fresh), <- (length_map key tasks).
      apply Permutation_length, NoDup_Permutation.
      * exact Hnd.
      * exact Hdistinct.
      * apply Hkeys, Hempty.
Qed.

Lemma AddTasks_twice_keeps_one_row_per_key_witness :
  disk (exampleWorld []) = [] /\
  NoDup (map key [newTask "Test" "method1" "..."; newTask "Test" "method2" "..."]) /\
  length (disk (snd (AddTasks [newTask "Test" "method1" "..."; newTask "Test" "method2" "..."]
                 (snd (AddTasks [newTask "Test" "method1" "..."; newTask "Test" "method2" "..."]
                         (exampleWorld []))))))
    = 2%nat.
Proof.
  assert (Hnd : NoDup (map key [newTask "Test" "method1" "...";
                                newTask "Test" "method2" "..."])).
  { apply (bool_decide_unpack _). vm_compute. exact I. }
  split; [reflexivity|]. split; [exact Hnd|].
  pose proof (AddTasks_twice_keeps_one_row_per_key (exampleWorld [])
                [newTask "Test" "method1" "..."; newTask "Test" "method2" "..."]) as H.
  destruct (AddTasks _ (exampleWorld [])) as [e1 w1] eqn:H1.
  assert (He1 : e1 = None).
  { apply (f_equal fst) in H1. vm_compute in H1. symmetry. exact H1. }
  subst e1. simpl. destruct (AddTasks _ w1) as [e2 w2]. simpl.
  destruct H as (_ & _ & _ & _ & H).
  assert (Hw : disk (exampleWorld []) = []) by reflexivity.
  exact (H Hw Hnd).
Defined.

(** Against C6 as stated: seeding twice a batch of two tasks that name the
    same (class, symbol) into an empty table succeeds both times and
    leaves one row, not two. *)
Lemma AddTasks_twice_repeated_key_leaves_one_row :
  let w1 := snd (AddTasks repeatedBatch (exampleWorld [])) in
  let w2 := snd (AddTasks repeatedBatch w1) in
  fst (AddTasks repeatedBatch (exampleWorld [])) = None /\
  fst (AddTasks repeatedBatch w1) = None /\
  length (disk w2) = 1%nat /\
  length repeatedBatch = 2%nat.
Proof. vm_compute. repeat split; reflexivity. Qed.

(* --------------------------------------------------------------------- *)
(** *** Claiming *)
(* --------------------------------------------------------------------- *)

Lemma scanRows_run rows : forall w,
  let '(res, w') := scanRows rows w in
  disk w' = disk w /\ autoinc w' = autoinc w /\ failing w' = failing w /\
  clock w' = clock w /\ trace w' = trace w /\
  match res with
  | Some tasks => tasks = map scanTask rows
  | None => ~ healthy w
  end.
Proof.
  induction rows as [|r rows IH]; intros w; cbn [scanRows].
  - unfold ret. repeat split; reflexivity.
  - unfold bind, driver. destruct (failing w (tick w)) eqn:Hf; simpl.
    + unfold ret. repeat split; try reflexivity.
      intros Hh. rewrite Hh in Hf. discriminate.
    + specialize (IH (next_tick w)). destruct (scanRows rows (next_tick w)) as [res w'].
      destruct IH as (H1 & H2 & H3 & H4 & H5 & H6). unfold ret.
      repeat split; try assumption.
      destruct res as [ts|]; [rewrite H6; reflexivity|].
      intros Hh. apply H6. exact Hh.
Qed.

Lemma id_in_spec ids r : id_in ids r = true <-> ID r ∈ ids.
Proof.
  unfold id_in. rewrite existsb_exists. split.
  - intros (x & Hin & Heq). apply Z.eqb_eq in Heq. rewrite Heq.
    apply list_elem_of_In. exact Hin.
  - intros Hin. exists (ID r). split; [apply list_elem_of_In; exact Hin | apply Z.eqb_refl].
Qed.

(** [FetchPendingBatch] returns either an error and no task, leaving the
    table as it was, or the scanned pending rows up to the limit, all of
    them marked in_flight by one UPDATE. *)
Lemma FetchPendingBatch_run n w :
  let '((tasks, err), w') := FetchPendingBatch n w in
  failing w' = failing w /\ clock w' = clock w /\ trace w' = trace w /\
  autoinc w' = autoinc w /\
  match err with
  | Some _ => ~ healthy w /\ tasks = [] /\ disk w' = disk w
  | None =>
      tasks = map scanTask (sql_select is_pending n (disk w)) /\
      ((tasks = [] /\ disk w' = disk w) \/
       (tasks <> [] /\
        exists now, disk w' = sql_update (id_in (map ID tasks)) (markInFlight now) (disk w)))
  end.
Proof.
  unfold FetchPendingBatch, bind, BeginTx, query, Rollback, Commit, driver, exec, ret.
  destruct (failing w (tick w)) eqn:Hb.
  { simpl. repeat split; try reflexivity. intros Hh. rewrite Hh in Hb. discriminate. }
  cbn [failing tick next_tick disk autoinc].
  destruct (failing w (S (tick w))) eqn:Hq.
  { simpl. repeat split; try reflexivity. intros Hh. rewrite Hh in Hq. discriminate. }
  pose proof (scanRows_run (sql_select is_pending n (disk w)) (next_tick (next_tick w))) as Hs.
  destruct (scanRows _ (next_tick (next_tick w))) as [scanned w2].
  destruct Hs as (Hd & Ha & Hf & Hc & Ht & Hres). simpl in Hd, Ha, Hf, Hc, Ht.
  destruct scanned as [tasks|].
  2:{ simpl. repeat split; try assumption; reflexivity. }
  destruct (failing w2 (tick w2)) eqn:Hi.
  { simpl. repeat split; try assumption; try reflexivity.
    intros Hh. rewrite Hf, Hh in Hi. discriminate. }
  cbn [negb].
  destruct (length tasks =? 0)%nat eqn:Hlen.
  { apply Nat.eqb_eq in Hlen. destruct tasks as [|t tasks]; [|discriminate Hlen].
    simpl. repeat split; try assumption.
    left. split; reflexivity. }
  cbn [failing tick next_tick disk autoinc fst snd].
  destruct (failing w2 (S (tick w2))) eqn:Hu.
  { simpl. repeat split; try assumption; try reflexivity.
    intros Hh. rewrite Hf, Hh in Hu. discriminate. }
  cbn [negb failing tick next_tick set_table disk autoinc].
  destruct (failing w2 (S (S (tick w2)))) eqn:Hcm.
  { simpl. repeat split; try assumption; try reflexivity.
    intros Hh. rewrite Hf, Hh in Hcm. discriminate. }
  simpl. repeat split; try assumption.
  right. split.
  - intros ->. discriminate.
  - exists (clock w2 (S (tick w2))). rewrite Hd. reflexivity.
Qed.

Lemma FetchPendingBatch_healthy n w :
  healthy w -> snd (fst (FetchPendingBatch n w)) = None /\ healthy (snd (FetchPendingBatch n w)).
Proof.
  intros Hh. pose proof (FetchPendingBatch_run n w) as H.
  destruct (FetchPendingBatch n w) as [[tasks err] w']. simpl.
  destruct H as (Hf & _ & _ & _ & H). split.
  - destruct err as [e|]; [|reflexivity]. destruct H as (H & _). contradiction.
  - intros k. rewrite Hf. apply Hh.
Qed.

Lemma sql_select_pending n rows :
  Forall (fun r => r ∈ rows /\ Status r = StatusPending) (sql_select is_pending n rows).
Proof.
  apply Forall_forall. intros r Hin. unfold sql_select, sql_limit in Hin.
  assert (Hf : r ∈ List.filter is_pending rows).
  { destruct (n <? 0); [exact Hin|]. exact (subseteq_take _ _ _ Hin). }
  apply list_elem_of_In, filter_In in Hf as [Hr Hp]. split.
  - apply list_elem_of_In. exact Hr.
  - apply String.eqb_eq. exact Hp.
Qed.

Lemma sql_select_no_pending n rows :
  Forall (fun r => Status r <> StatusPending) rows -> sql_select is_pending n rows = [].
Proof.
  intros Hno. destruct (sql_select is_pending n rows) as [|r l] eqn:Hs; [reflexivity|].
  pose proof (sql_select_pending n rows) as Hall. rewrite Hs in Hall.
  inversion Hall as [|? ? [Hin Hp] _]; subst.
  rewrite Forall_forall in Hno. exfalso. exact (Hno r Hin Hp).
Qed.

Lemma claimed_row_markInFlight ids now r :
  claimed_row ids now r (if id_in ids r then markInFlight now r else r).
Proof.
  unfold claimed_row. destruct (id_in ids r); [|reflexivity].
  simpl. repeat split; reflexivity.
Qed.

Lemma sql_update_claims ids now rows t :
  Exists (fun r => ID r = ID t) rows -> ID t ∈ ids ->
  persisted_in_flight (sql_update (id_in ids) (markInFlight now) rows) t.
Proof.
  intros Hex Hid. unfold persisted_in_flight, sql_update. split.
  - apply Exists_exists in Hex as (r & Hin & Hr).
    apply Exists_exists. exists (markInFlight now r). split.
    + apply list_elem_of_fmap. exists r. split; [|exact Hin].
      replace (id_in ids r) with true; [reflexivity|].
      symmetry. apply id_in_spec. rewrite Hr. exact Hid.
    + split; [exact Hr | reflexivity].
  - apply Forall_forall. intros r' Hin Hr'.
    apply list_elem_of_fmap in Hin as (r & -> & Hin).
    destruct (id_in ids r) eqn:Hc; [reflexivity|].
    exfalso. apply not_true_iff_false in Hc. apply Hc, id_in_spec.
    rewrite Hr'. exact Hid.
Qed.

Lemma scanned_rows_exist n rows :
  Forall (fun t => Exists (fun r => ID r = ID t) rows)
         (map scanTask (sql_select is_pending n rows)).
Proof.
  apply Forall_forall. intros t Ht.
  apply list_elem_of_fmap in Ht as (r & -> & Hr).
  pose proof (sql_select_pending n rows) as Hall.
  rewrite Forall_forall in Hall. destruct (Hall r Hr) as [Hin _].
  apply Exists_exists. exists r. split; [exact Hin | reflexivity].
Qed.

(** C2. [FetchPendingBatch] is a total function of the store state, the
    limit and the driver's behaviour, so a call always returns.  When no
    row is pending it returns no task and leaves the table alone.  When it
    returns without error, every returned task is stored as in_flight (the
    rows with the returned ids were marked by one UPDATE, all other rows
    are untouched); when it returns an error, it returns no task and no
    row has changed. *)
Theorem FetchPendingBatch_all_or_nothing (w : world) (n : Z) :
  let '((tasks, err), w') := FetchPendingBatch n w in
  (Forall (fun r => Status r <> StatusPending) (disk w) ->
   tasks = [] /\ disk w' = disk w) /\
  match err with
  | None =>
      Forall (persisted_in_flight (disk w')) tasks /\
      exists now, Forall2 (claimed_row (map ID tasks) now) (disk w) (disk w')
  | Some _ => tasks = [] /\ disk w' = disk w
  end.
Proof.
  pose proof (FetchPendingBatch_run n w) as H.
  destruct (FetchPendingBatch n w) as [[tasks err] w'].
  destruct H as (_ & _ & _ & _ & H). destruct err as [e|].
  - destruct H as (_ & Ht & Hd). repeat split; assumption.
  - destruct H as (Ht & Hcases). split.
    + intros Hno. rewrite (sql_select_no_pending n _ Hno) in Ht. simpl in Ht.
      split; [exact Ht|].
      destruct Hcases as [[_ Hd] | [Hne _]]; [exact Hd | contradiction].
    + destruct Hcases as [[Hnil Hd] | [Hne (now & Hd)]].
      * rewrite Hnil, Hd. split; [constructor|]. exists 0.
        apply Forall2_same_length_lookup. split; [reflexivity|].
        intros i r r' Hr Hr'. unfold claimed_row. simpl. congruence.
      * split.
        -- apply Forall_forall. intros t Hin. rewrite Hd.
           apply sql_update_claims.
           ++ pose proof (scanned_rows_exist n (disk w)) as Hex.
              rewrite <- Ht in Hex. rewrite Forall_forall in Hex. apply Hex, Hin.
           ++ apply list_elem_of_fmap. exists t. split; [reflexivity | exact Hin].
        -- exists now. rewrite Hd. apply sql_update_Forall2.
           intros r. apply claimed_row_markInFlight.
Qed.

Lemma FetchPendingBatch_all_or_nothing_witness :
  Forall (fun r => Status r <> StatusPending) (disk (exampleWorld [exampleRow])) /\
  fst (fst (FetchPendingBatch 10 (exampleWorld [exampleRow]))) = [].
Proof.
  assert (Hno : Forall (fun r => Status r <> StatusPending) (disk (exampleWorld [exampleRow]))).
  { repeat constructor. simpl. discriminate. }
  split; [exact Hno|].
  pose proof (FetchPendingBatch_all_or_nothing (exampleWorld [exampleRow]) 10) as H.
  destruct (FetchPendingBatch 10 (exampleWorld [exampleRow])) as [[tasks err] w'].
  simpl. destruct H as (H & _). exact (proj1 (H Hno)).
Defined.

(* ===================================================================== *)
(** ** The worker: statements *)
(* ===================================================================== *)

Lemma only_touches_refl ids rows : only_touches ids rows rows.
Proof.
  unfold only_touches. induction rows; constructor; auto.
Qed.

Lemma only_touches_trans ids rows1 rows2 rows3 :
  only_touches ids rows1 rows2 -> only_touches ids rows2 rows3 ->
  only_touches ids rows1 rows3.
Proof.
  unfold only_touches. intros H12. revert rows3.
  induction H12 as [|r1 r2 l1 l2 [Hid Hsame] _ IH]; intros rows3 H23;
    inversion H23 as [|? r3 ? l3 [Hid' Hsame'] Hrest]; subst; constructor.
  - split; [congruence|]. intros Hn. rewrite Hsame', (Hsame Hn); [reflexivity|].
    rewrite (Hsame Hn). exact Hn.
  - apply IH. exact Hrest.
Qed.

Lemma only_touches_mono ids ids' rows rows' :
  (forall id, id ∈ ids -> id ∈ ids') ->
  only_touches ids rows rows' -> only_touches ids' rows rows'.
Proof.
  unfold only_touches. intros Hsub H.
  eapply Forall2_impl; [exact H|]. intros r r' [Hid Hsame]. split; [exact Hid|].
  intros Hn. apply Hsame. intros Hin. apply Hn, Hsub, Hin.
Qed.

Lemma only_touches_ids ids rows rows' :
  only_touches ids rows rows' -> map ID rows' = map ID rows.
Proof.
  unfold only_touches. induction 1 as [|r r' l l' [Hid _] _ IH]; simpl; congruence.
Qed.

Lemma sql_update_by_id_touches id (set : Task -> Task) rows :
  (forall r, ID (set r) = ID r) ->
  only_touches [id] rows (sql_update (fun r => ID r =? id) set rows).
Proof.
  intros Hset. apply sql_update_Forall2. intros r.
  destruct (ID r =? id) eqn:He.
  - split; [apply Hset|]. intros Hn. exfalso. apply Hn.
    apply Z.eqb_eq in He. rewrite He. apply list_elem_of_here.
  - split; reflexivity.
Qed.

Lemma UpdateTaskSuccess_touches id src w :
  let w' := snd (UpdateTaskSuccess id src w) in
  only_touches [id] (disk w) (disk w') /\ failing w' = failing w.
Proof.
  rewrite UpdateTaskSuccess_run. destruct (failing w (tick w)); simpl.
  - split; [apply only_touches_refl | reflexivity].
  - split; [|reflexivity]. apply sql_update_by_id_touches. reflexivity.
Qed.

Lemma UpdateTaskFailure_touches id msg retryCount w :
  let w' := snd (UpdateTaskFailure id msg retryCount w) in
  only_touches [id] (disk w) (disk w') /\ failing w' = failing w.
Proof.
  rewrite UpdateTaskFailure_run. destruct (failing w (tick w)); simpl.
  - split; [apply only_touches_refl | reflexivity].
  - split; [|reflexivity]. apply sql_update_by_id_touches. reflexivity.
Qed.

Lemma forEach_touches {A : Type} ids (body : A -> M unit) (xs : list A) :
  (forall x w, x ∈ xs ->
     only_touches ids (disk w) (disk (snd (body x w))) /\
     failing (snd (body x w)) = failing w) ->
  forall w,
    only_touches ids (disk w) (disk (snd (forEach xs body w))) /\
    failing (snd (forEach xs body w)) = failing w.
Proof.
  induction xs as [|x xs IH]; intros Hbody w; cbn [forEach].
  - split; [apply only_touches_refl | reflexivity].
  - unfold bind. destruct (Hbody x w (list_elem_of_here _ _)) as [Ht Hf].
    destruct (body x w) as [[] w1]. simpl in Ht, Hf.
    destruct (IH (fun y w' Hy => Hbody y w' (list_elem_of_further _ _ _ Hy)) w1) as [Ht' Hf'].
    split; [eapply only_touches_trans; eassumption | congruence].
Qed.

Lemma FetchPendingBatch_touches n w :
  let '((tasks, err), w') := FetchPendingBatch n w in
  only_touches (map ID tasks) (disk w) (disk w') /\
  Forall (fun t => exists r, r ∈ disk w /\ Status r = StatusPending /\ t = scanTask r) tasks.
Proof.
  pose proof (FetchPendingBatch_run n w) as H.
  destruct (FetchPendingBatch n w) as [[tasks err] w'].
  destruct H as (_ & _ & _ & _ & H). destruct err as [e|].
  - destruct H as (_ & -> & ->). split; [apply only_touches_refl | constructor].
  - destruct H as (Ht & Hcases). split.
    + destruct Hcases as [[_ ->] | [_ (now & ->)]]; [apply only_touches_refl|].
      apply sql_update_Forall2. intros r. destruct (id_in (map ID tasks) r) eqn:Hc.
      * split; [reflexivity|]. intros Hn. exfalso. apply Hn, id_in_spec, Hc.
      * split; reflexivity.
    + rewrite Ht. apply Forall_forall. intros t Hin.
      apply list_elem_of_fmap in Hin as (r & -> & Hr).
      pose proof (sql_select_pending n (disk w)) as Hall.
      rewrite Forall_forall in Hall. destruct (Hall r Hr) as [Hin Hp].
      exists r. repeat split; assumption.
Qed.

Lemma NoDup_ids_same_row rows r1 r2 :
  NoDup (map ID rows) -> r1 ∈ rows -> r2 ∈ rows -> ID r1 = ID r2 -> r1 = r2.
Proof.
  induction rows as [|r rows IH]; intros Hnd H1 H2 Hid.
  - inversion H1.
  - simpl in Hnd. apply NoDup_cons in Hnd as [Hnotin Hnd].
    apply elem_of_cons in H1 as [->|H1]; apply elem_of_cons in H2 as [->|H2].
    + reflexivity.
    + exfalso. apply Hnotin. rewrite Hid. apply list_elem_of_fmap. eauto.
    + exfalso. apply Hnotin. rewrite <- Hid. apply list_elem_of_fmap. eauto.
    + apply IH; assumption.
Qed.

(** With unique ids, an update that touches only ids of pending rows keeps
    every row that was not pending. *)
Lemma only_touches_pending_settled ids rows rows' :
  NoDup (map ID rows) ->
  (forall id, id ∈ ids -> exists r, r ∈ rows /\ Status r = StatusPending /\ ID r = id) ->
  only_touches ids rows rows' -> settled_rows_kept rows rows'.
Proof.
  intros Hnd Hids Ht. unfold settled_rows_kept, only_touches in *.
  apply Forall2_same_length_lookup. apply Forall2_same_length_lookup in Ht as [Hlen Ht].
  split; [exact Hlen|]. intros i r r' Hr Hr'.
  destruct (Ht i r r' Hr Hr') as [Hid Hsame]. split; [exact Hid|].
  intros Hst. apply Hsame. intros Hin.
  destruct (Hids _ Hin) as (r0 & Hr0 & Hp & Hid0).
  assert (r0 = r).
  { apply (NoDup_ids_same_row rows); try assumption.
    apply list_elem_of_lookup. eauto. }
  subst r0. contradiction.
Qed.

Lemma settled_rows_kept_refl rows : settled_rows_kept rows rows.
Proof. unfold settled_rows_kept. induction rows; constructor; auto. Qed.

Lemma settled_rows_kept_trans rows1 rows2 rows3 :
  settled_rows_kept rows1 rows2 -> settled_rows_kept rows2 rows3 ->
  settled_rows_kept rows1 rows3.
Proof.
  unfold settled_rows_kept. intros H12. revert rows3.
  induction H12 as [|r1 r2 l1 l2 [Hid Hsame] _ IH]; intros rows3 H23;
    inversion H23 as [|? r3 ? l3 [Hid' Hsame'] Hrest]; subst; constructor.
  - split; [congruence|]. intros Hn. rewrite Hsame', (Hsame Hn); [reflexivity|].
    rewrite (Hsame Hn). exact Hn.
  - apply IH. exact Hrest.
Qed.

Lemma settled_rows_kept_ids rows rows' :
  settled_rows_kept rows rows' -> map ID rows' = map ID rows.
Proof.
  unfold settled_rows_kept. induction 1 as [|r r' l l' [Hid _] _ IH]; simpl; congruence.
Qed.

(* --------------------------------------------------------------------- *)
(** *** The primary key *)
(* --------------------------------------------------------------------- *)

(** The ids of the table are unique from the empty table on: [AddTasks]
    hands out fresh ids, and no other method adds a row or changes an id. *)

Lemma max_rowid_bound rows r : r ∈ rows -> ID r <= max_rowid rows.
Proof.
  induction rows as [|r0 rows IH]; intros Hin; [inversion Hin|].
  cbn [max_rowid fold_right]. fold (max_rowid rows).
  apply elem_of_cons in Hin as [->|Hin]; [lia|]. specialize (IH Hin). lia.
Qed.

Lemma sql_insert_or_ignore_ids_unique c s a st now rows seq :
  NoDup (map ID rows) ->
  NoDup (map ID (fst (sql_insert_or_ignore c s a st now (rows, seq)))).
Proof.
  intros Hnd. unfold sql_insert_or_ignore.
  destruct (negb (check_status st)); [exact Hnd|].
  destruct (existsb (same_key c s) rows); [exact Hnd|].
  cbn [fst]. rewrite map_app. cbn [map ID]. apply NoDup_app. split; [exact Hnd|].
  split; [|apply NoDup_singleton].
  intros id Hid Hnew. apply list_elem_of_singleton in Hnew.
  apply list_elem_of_fmap in Hid as (r & -> & Hr).
  pose proof (max_rowid_bound rows r Hr). unfold next_rowid in Hnew. lia.
Qed.

Lemma seed_rows_ids_unique ck tasks : forall k rows seq,
  NoDup (map ID rows) ->
  NoDup (map ID (fst (seed_rows ck k tasks (rows, seq)))).
Proof.
  induction tasks as [|t tasks IH]; intros k rows seq Hnd; cbn [seed_rows]; [exact Hnd|].
  pose proof (sql_insert_or_ignore_ids_unique (ClassName t) (SymbolName t) (AssemblyCode t)
                StatusPending (ck k) rows seq Hnd) as H1.
  destruct (sql_insert_or_ignore _ _ _ _ _ (rows, seq)) as [rows1 seq1].
  apply IH. exact H1.
Qed.

Lemma AddTasks_keeps_ids_unique tasks w :
  NoDup (map ID (disk w)) -> NoDup (map ID (disk (snd (AddTasks tasks w)))).
Proof.
  intros Hnd. pose proof (AddTasks_run tasks w) as Hrun.
  destruct (AddTasks tasks w) as [[e|] w']; cbn [snd];
    destruct Hrun as (_ & _ & _ & Hd).
  - destruct Hd as [-> _]. exact Hnd.
  - pose proof (seed_rows_ids_unique (clock w) tasks (S (S (tick w))) (disk w) (autoinc w) Hnd)
      as H. rewrite <- Hd in H. exact H.
Qed.

Lemma ResetInFlightTasks_keeps_ids w :
  map ID (disk (snd (ResetInFlightTasks w))) = map ID (disk w).
Proof.
  unfold ResetInFlightTasks, bind, exec, ret.
  destruct (failing w (tick w)); cbn [fst snd disk next_tick set_table]; [reflexivity|].
  unfold sql_update. rewrite map_map. apply map_ext. intros r.
  destruct (String.eqb (Status r) StatusInFlight); reflexivity.
Qed.

Lemma FetchPendingBatch_keeps_ids n w :
  map ID (disk (snd (FetchPendingBatch n w))) = map ID (disk w).
Proof.
  pose proof (FetchPendingBatch_touches n w) as H.
  destruct (FetchPendingBatch n w) as [[tasks err] w']. destruct H as [H _].
  exact (only_touches_ids _ _ _ H).
Qed.

(* --------------------------------------------------------------------- *)
(** *** Rows by id *)
(* --------------------------------------------------------------------- *)

Lemma add64_succ a :
  minInt64 <= a -> a < maxInt64 -> add64 a 1 = a + 1.
Proof.
  unfold add64, wrap64, minInt64, maxInt64. intros Hlo Hhi.
  rewrite Z.mod_small; lia.
Qed.

Lemma row_of_present id rows :
  id ∈ map ID rows -> exists r, row_of id rows = Some r /\ ID r = id /\ r ∈ rows.
Proof.
  unfold row_of. induction rows as [|r rows IH]; intros Hin.
  - inversion Hin.
  - cbn [List.find]. destruct (ID r =? id) eqn:He.
    + exists r. apply Z.eqb_eq in He. repeat split; [exact He | apply list_elem_of_here].
    + simpl in Hin. apply elem_of_cons in Hin as [Heq|Hin].
      * apply Z.eqb_neq in He. congruence.
      * destruct (IH Hin) as (r' & Hf & Hid & Hr'). exists r'.
        repeat split; [exact Hf | exact Hid | apply list_elem_of_further; exact Hr'].
Qed.

Lemma row_of_Some id rows r :
  row_of id rows = Some r -> ID r = id /\ r ∈ rows.
Proof.
  unfold row_of. intros H. apply find_some in H as [Hin He].
  split; [apply Z.eqb_eq; exact He | apply list_elem_of_In; exact Hin].
Qed.

Lemma row_of_update id (set : Task -> Task) rows :
  (forall r, ID (set r) = ID r) ->
  row_of id (sql_update (fun r => ID r =? id) set rows) = option_map set (row_of id rows).
Proof.
  intros Hset. unfold row_of, sql_update.
  induction rows as [|r rows IH]; [reflexivity|].
  cbn [map List.find]. destruct (ID r =? id) eqn:He.
  - rewrite Hset, He. reflexivity.
  - rewrite He. exact IH.
Qed.

Lemma row_of_untouched ids id rows rows' :
  only_touches ids rows rows' -> id ∉ ids -> row_of id rows' = row_of id rows.
Proof.
  unfold only_touches, row_of. intros H Hn.
  induction H as [|r r' l l' [Hid Hsame] _ IH]; [reflexivity|].
  cbn [List.find]. rewrite Hid. destruct (ID r =? id) eqn:He.
  - apply Z.eqb_eq in He. rewrite Hsame; [reflexivity|]. rewrite He. exact Hn.
  - exact IH.
Qed.

Lemma filter_sublist (cond : Task -> bool) rows : List.filter cond rows `sublist_of` rows.
Proof.
  induction rows as [|r rows IH]; simpl; [constructor|].
  destruct (cond r); [apply sublist_skip | apply sublist_cons]; exact IH.
Qed.

Lemma sql_select_sublist cond n rows : sql_select cond n rows `sublist_of` rows.
Proof.
  unfold sql_select, sql_limit. destruct (n <? 0).
  - apply filter_sublist.
  - etrans; [apply sublist_take | apply filter_sublist].
Qed.

Lemma scanned_ids rows : map ID (map scanTask rows) = map ID rows.
Proof. rewrite map_map. reflexivity. Qed.

(** The batch [FetchPendingBatch] can return from a table with unique ids
    has unique ids, all of them ids of the table. *)
Lemma claimed_ids_unique n rows :
  NoDup (map ID rows) ->
  NoDup (map ID (map scanTask (sql_select is_pending n rows))) /\
  (forall t, t ∈ map scanTask (sql_select is_pending n rows) ->
     exists r, r ∈ rows /\ Status r = StatusPending /\ t = scanTask r).
Proof.
  intros Hnd. split.
  - rewrite scanned_ids. apply (sublist_NoDup _ (map ID rows)); [exact Hnd | apply (fmap_sublist ID), sql_select_sublist].
  - intros t Ht. apply list_elem_of_fmap in Ht as (r & -> & Hr).
    pose proof (sql_select_pending n rows) as Hall. rewrite Forall_forall in Hall.
    destruct (Hall r Hr) as [Hin Hp]. exists r. repeat split; assumption.
Qed.

Section WorkerFacts.

Variable appendString : string -> string.
Variable callLiteLLM : nat -> string -> string -> string -> list DecompiledResult + string.
Variable ctxDone : nat -> bool.

(* --------------------------------------------------------------------- *)
(** *** The prompt *)
(* --------------------------------------------------------------------- *)

Lemma encode_method depth task :
  exists s, Json.encode appendString depth (methodOf task) = inl s.
Proof. unfold methodOf. cbn. eexists. reflexivity. Qed.

Lemma collect_methods depth tasks :
  exists ss, Json.collect (Json.encode appendString depth) (map methodOf tasks) = inl ss.
Proof.
  induction tasks as [|t tasks [ss IH]]; cbn [map Json.collect].
  - exists []. reflexivity.
  - destruct (encode_method depth t) as [s ->]. rewrite IH. eexists. reflexivity.
Qed.

Lemma formatPrompt_total tasks :
  exists jsonData,
    formatPrompt appendString tasks
    = (String.append (String.append preamble (String.append Json.nl Json.nl))
         jsonData, None).
Proof.
  unfold formatPrompt, Json.MarshalIndent. cbn [Json.encode].
  destruct (collect_methods 1 tasks) as [ss ->].
  eexists. reflexivity.
Qed.

(* --------------------------------------------------------------------- *)
(** *** What a turn of the loop may touch *)
(* --------------------------------------------------------------------- *)

Lemma buildTaskMap_lookup tasks symbol task :
  buildTaskMap tasks !! symbol = Some task ->
  task ∈ tasks /\ SymbolName task = symbol.
Proof.
  unfold buildTaskMap.
  assert (Hgen : forall (m : gmap string Task),
            foldl (fun m t => <[SymbolName t := t]> m) m tasks !! symbol = Some task ->
            (task ∈ tasks /\ SymbolName task = symbol) \/ m !! symbol = Some task).
  { induction tasks as [|t tasks IH]; intros m H; simpl in H.
    - right. exact H.
    - destruct (IH _ H) as [[Hin Hs] | Hm].
      + left. split; [apply list_elem_of_further; exact Hin | exact Hs].
      + destruct (decide (SymbolName t = symbol)) as [Heq|Hne].
        * rewrite <- Heq, lookup_insert_eq in Hm. injection Hm as <-.
          left. split; [apply list_elem_of_here | exact Heq].
        * rewrite lookup_insert_ne in Hm by exact Hne. right. exact Hm. }
  intros H. destruct (Hgen ∅ H) as [Hok | Hempty]; [exact Hok|].
  rewrite lookup_empty in Hempty. discriminate.
Qed.


Lemma log_run e w :
  disk (snd (log e w)) = disk w /\ failing (snd (log e w)) = failing w /\
  trace (snd (log e w)) = trace w ++ [e].
Proof. repeat split; reflexivity. Qed.

Lemma applyResult_touches tasks result w :
  let w' := snd (applyResult (buildTaskMap tasks) result w) in
  only_touches (map ID tasks) (disk w) (disk w') /\ failing w' = failing w.
Proof.
  unfold applyResult.
  destruct (buildTaskMap tasks !! rSymbolName result) as [task|] eqn:Hl.
  - apply buildTaskMap_lookup in Hl as [Hin _].
    assert (Hsub : forall id, id ∈ [ID task] -> id ∈ map ID tasks).
    { intros id Hid. apply list_elem_of_singleton in Hid as ->.
      apply list_elem_of_fmap. exists task. split; [reflexivity | exact Hin]. }
    destruct (rSuccess result); unfold bind.
    + pose proof (UpdateTaskSuccess_touches (ID task) (rDecompiledSource result) w) as [Ht Hf].
      destruct (UpdateTaskSuccess _ _ w) as [err w1]. simpl in Ht, Hf.
      destruct err; simpl; (split; [eapply only_touches_mono; eassumption | exact Hf]).
    + simpl.
      pose proof (UpdateTaskFailure_touches (ID task) (rErrorMessage result) (Retries task)
                    (snd (log (LogAIFailed (rSymbolName result) (rErrorMessage result)) w)))
        as [Ht Hf].
      destruct (UpdateTaskFailure _ _ _ _) as [err w1]. simpl in Ht, Hf.
      destruct err; simpl; (split; [eapply only_touches_mono; eassumption | exact Hf]).
  - simpl. split; [apply only_touches_refl | reflexivity].
Qed.

Lemma failTransport_touches tasks maxRetries msg task w :
  task ∈ tasks ->
  let w' := snd (failTransport maxRetries msg task w) in
  only_touches (map ID tasks) (disk w) (disk w') /\ failing w' = failing w.
Proof.
  intros Hin.
  assert (Hsub : forall id, id ∈ [ID task] -> id ∈ map ID tasks).
  { intros id Hid. apply list_elem_of_singleton in Hid as ->.
    apply list_elem_of_fmap. exists task. split; [reflexivity | exact Hin]. }
  unfold failTransport, bind, ret. destruct (Retries task <? maxRetries).
  - pose proof (UpdateTaskFailure_touches (ID task) msg (add64 (Retries task) 1) w) as [Ht Hf].
    destruct (UpdateTaskFailure _ _ _ w) as [err w1]. simpl in *.
    split; [eapply only_touches_mono; eassumption | exact Hf].
  - pose proof (UpdateTaskFailure_touches (ID task) "Max retries exceeded" (Retries task) w)
      as [Ht Hf].
    destruct (UpdateTaskFailure _ _ _ w) as [err w1]. simpl in *.
    split; [eapply only_touches_mono; eassumption | exact Hf].
Qed.

(** Whatever the model replies and wherever the driver fails, a turn of
    the loop touches only rows it has just claimed. *)
Lemma iteration_touches url model n maxRetries w :
  let tasks := fst (fst (FetchPendingBatch n w)) in
  let w' := snd (iteration appendString callLiteLLM ctxDone url model n maxRetries w) in
  only_touches (map ID tasks) (disk w) (disk w') /\ failing w' = failing w.
Proof.
  unfold iteration. destruct (ctxDone (tick w)).
  { simpl. split; [apply only_touches_refl | reflexivity]. }
  unfold bind.
  pose proof (FetchPendingBatch_touches n w) as Hfetch.
  pose proof (FetchPendingBatch_run n w) as Hrun.
  destruct (FetchPendingBatch n w) as [[tasks err] w1].
  destruct Hfetch as [Ht1 _]. destruct Hrun as (Hf1 & _).
  cbn [fst snd]. destruct err as [e|].
  { simpl. split; assumption. }
  destruct (length tasks =? 0)%nat.
  { simpl. split; assumption. }
  destruct (formatPrompt_total tasks) as [jsonData ->].
  cbn [log fst snd].
  set (w2 := {| disk := disk w1; autoinc := autoinc w1; tick := tick w1;
                failing := failing w1; clock := clock w1;
                trace := trace w1 ++ [LogProcessing (length tasks)] |}).
  destruct (callLiteLLM (tick w2) url model _) as [results | msg].
  - unfold applyResults.
    pose proof (forEach_touches (map ID tasks) (applyResult (buildTaskMap tasks)) results
                  (fun x w0 _ => applyResult_touches tasks x w0) w2) as [Ht Hf].
    destruct (forEach results _ w2) as [[] w3]. cbn [fst snd ret] in *.
    split; [eapply only_touches_trans; eassumption | rewrite Hf; exact Hf1].
  - cbn [log fst snd].
    match goal with |- context [forEach tasks ?b ?wlog] =>
      pose proof (forEach_touches (map ID tasks) b tasks
                    (fun x wx Hx => failTransport_touches tasks maxRetries msg x wx Hx) wlog)
        as [Ht Hf];
      destruct (forEach tasks b wlog) as [[] w3]
    end.
    cbn [fst snd ret disk failing] in *.
    split; [eapply only_touches_trans; eassumption | rewrite Hf; exact Hf1].
Qed.

Lemma iteration_keeps_settled url model n maxRetries w :
  NoDup (map ID (disk w)) ->
  settled_rows_kept (disk w)
    (disk (snd (iteration appendString callLiteLLM ctxDone url model n maxRetries w))).
Proof.
  intros Hnd. pose proof (iteration_touches url model n maxRetries w) as [Ht _].
  pose proof (FetchPendingBatch_touches n w) as Hfetch.
  destruct (FetchPendingBatch n w) as [[tasks err] w1]. cbn [fst snd] in Ht.
  destruct Hfetch as [_ Hpending].
  eapply only_touches_pending_settled; [exact Hnd | | exact Ht].
  intros id Hid. apply list_elem_of_fmap in Hid as (t & -> & Hin).
  rewrite Forall_forall in Hpending. destruct (Hpending t Hin) as (r & Hr & Hp & ->).
  exists r. repeat split; assumption.
Qed.

(** C3, as the code has it.  The terminal updates carry no status guard,
    but a worker only names ids it has just claimed, and it claims only
    pending rows.  So, the ids being unique, a run of the worker loop of any
    length, under any model replies and any driver failures, leaves every
    row that was not pending when the run began exactly as it was: in
    particular a row that is already completed is never mutated by a later
    turn of any worker. *)
Theorem DecompileWorker_keeps_completed_rows (fuel : nat) (url model : string)
    (n maxRetries : Z) (w : world) :
  NoDup (map ID (disk w)) ->
  let w' := snd (DecompileWorker appendString callLiteLLM ctxDone fuel url model n maxRetries w) in
  settled_rows_kept (disk w) (disk w') /\
  Forall2 (fun r r' => Status r = StatusCompleted -> r' = r) (disk w) (disk w').
Proof.
  intros Hnd.
  assert (Hloop : forall fuel' w0, NoDup (map ID (disk w0)) ->
            settled_rows_kept (disk w0)
              (disk (snd (workerLoop appendString callLiteLLM ctxDone fuel' url model n
                            maxRetries w0)))).
  { induction fuel' as [|fuel' IH]; intros w0 Hnd0; cbn [workerLoop].
    - apply settled_rows_kept_refl.
    - unfold bind.
      pose proof (iteration_keeps_settled url model n maxRetries w0 Hnd0) as H1.
      destruct (iteration _ _ _ url model n maxRetries w0) as [c w1]. cbn [snd] in H1.
      destruct c; [|exact H1].
      eapply settled_rows_kept_trans; [exact H1|]. apply IH.
      rewrite (settled_rows_kept_ids _ _ H1). exact Hnd0. }
  assert (Hkept : settled_rows_kept (disk w)
            (disk (snd (DecompileWorker appendString callLiteLLM ctxDone fuel url model n
                          maxRetries w)))).
  { unfold DecompileWorker, bind. cbn [log fst snd].
    match goal with |- context [workerLoop _ _ _ fuel url model n maxRetries ?wlog] =>
      pose proof (Hloop fuel wlog Hnd) as H;
      destruct (workerLoop appendString callLiteLLM ctxDone fuel url model n maxRetries wlog)
        as [returned w1]
    end.
    destruct returned; exact H. }
  split; [exact Hkept|].
  eapply Forall2_impl; [exact Hkept|]. intros r r' [_ Hsame] Hc. apply Hsame.
  rewrite Hc. discriminate.
Qed.

(* --------------------------------------------------------------------- *)
(** *** What a turn of the loop logs *)
(* --------------------------------------------------------------------- *)

Lemma quiet_refl w w' : trace w' = trace w -> quiet w w'.
Proof. intros H. exists []. rewrite app_nil_r. split; [exact H | constructor]. Qed.

Lemma quiet_trans w1 w2 w3 : quiet w1 w2 -> quiet w2 w3 -> quiet w1 w3.
Proof.
  intros (e1 & H1 & F1) (e2 & H2 & F2). exists (e1 ++ e2).
  rewrite H2, H1, app_assoc. split; [reflexivity | apply Forall_app; split; assumption].
Qed.

Lemma quiet_log e w : not_format_failure e -> quiet w (snd (log e w)).
Proof. intros He. exists [e]. split; [reflexivity | repeat constructor; exact He]. Qed.

Lemma UpdateTaskSuccess_trace id src w :
  trace (snd (UpdateTaskSuccess id src w)) = trace w.
Proof. rewrite UpdateTaskSuccess_run. destruct (failing w (tick w)); reflexivity. Qed.

Lemma UpdateTaskFailure_trace id msg retryCount w :
  trace (snd (UpdateTaskFailure id msg retryCount w)) = trace w.
Proof. rewrite UpdateTaskFailure_run. destruct (failing w (tick w)); reflexivity. Qed.

Lemma forEach_quiet {A : Type} (body : A -> M unit) (xs : list A) :
  (forall x w, quiet w (snd (body x w))) ->
  forall w, quiet w (snd (forEach xs body w)).
Proof.
  intros Hbody. induction xs as [|x xs IH]; intros w; cbn [forEach].
  - apply quiet_refl. reflexivity.
  - unfold bind. pose proof (Hbody x w) as H1. destruct (body x w) as [[] w1].
    eapply quiet_trans; [exact H1 | apply IH].
Qed.

Lemma applyResult_quiet taskMap result w :
  quiet w (snd (applyResult taskMap result w)).
Proof.
  unfold applyResult. destruct (taskMap !! rSymbolName result) as [task|].
  - destruct (rSuccess result); unfold bind.
    + pose proof (UpdateTaskSuccess_trace (ID task) (rDecompiledSource result) w) as Ht.
      destruct (UpdateTaskSuccess _ _ w) as [err w1]. cbn [snd] in Ht.
      destruct err as [e|].
      * eapply quiet_trans; [apply quiet_refl; exact Ht | apply quiet_log; exact I].
      * apply quiet_refl. exact Ht.
    + cbn [log fst snd].
      match goal with |- context [UpdateTaskFailure ?i ?m ?c ?w0] =>
        pose proof (UpdateTaskFailure_trace i m c w0) as Ht;
        destruct (UpdateTaskFailure i m c w0) as [err w1]
      end.
      cbn [snd trace] in Ht.
      assert (H1 : quiet w w1).
      { exists [LogAIFailed (rSymbolName result) (rErrorMessage result)].
        split; [exact Ht | repeat constructor]. }
      destruct err as [e|].
      * eapply quiet_trans; [exact H1 | apply quiet_log; exact I].
      * exact H1.
  - apply quiet_log. exact I.
Qed.

Lemma failTransport_quiet maxRetries msg task w :
  quiet w (snd (failTransport maxRetries msg task w)).
Proof.
  unfold failTransport, bind, ret. destruct (Retries task <? maxRetries).
  - pose proof (UpdateTaskFailure_trace (ID task) msg (add64 (Retries task) 1) w) as Ht.
    destruct (UpdateTaskFailure _ _ _ w) as [err w1]. apply quiet_refl. exact Ht.
  - pose proof (UpdateTaskFailure_trace (ID task) "Max retries exceeded" (Retries task) w) as Ht.
    destruct (UpdateTaskFailure _ _ _ w) as [err w1]. apply quiet_refl. exact Ht.
Qed.

(** C9. [formatPrompt] returns a prompt and no error for every batch: its
    argument to [json.MarshalIndent] is a slice of structs of two strings,
    which always encodes.  Hence no turn of the worker loop, whatever the
    store, the model and the driver do, takes the branch that logs "failed
    to format prompt" and fails the batch with retries+1. *)
Theorem formatPrompt_never_fails :
  (forall tasks : list Task,
     snd (formatPrompt appendString tasks) = None /\
     exists jsonData,
       fst (formatPrompt appendString tasks)
       = String.append (String.append preamble (String.append Json.nl Json.nl)) jsonData) /\
  (forall (url model : string) (n maxRetries : Z) (w : world),
     exists evs,
       trace (snd (iteration appendString callLiteLLM ctxDone url model n maxRetries w))
       = trace w ++ evs /\
       Forall not_format_failure evs).
Proof.
  split.
  - intros tasks. destruct (formatPrompt_total tasks) as [jsonData ->].
    split; [reflexivity | exists jsonData; reflexivity].
  - intros url model n maxRetries w. change (quiet w (snd (iteration appendString callLiteLLM
      ctxDone url model n maxRetries w))).
    unfold iteration. destruct (ctxDone (tick w)).
    { apply quiet_log. exact I. }
    unfold bind.
    pose proof (FetchPendingBatch_run n w) as Hrun.
    destruct (FetchPendingBatch n w) as [[tasks err] w1].
    destruct Hrun as (_ & _ & Htr & _).
    assert (H1 : quiet w w1) by (apply quiet_refl; exact Htr).
    destruct err as [e|].
    { cbn [log fst snd ret]. eapply quiet_trans; [exact H1|].
      exists [LogFetchError e; Sleep 5]. cbn [trace]. rewrite <- app_assoc.
      split; [reflexivity | repeat constructor]. }
    destruct (length tasks =? 0)%nat.
    { eapply quiet_trans; [exact H1 | apply quiet_log; exact I]. }
    destruct (formatPrompt_total tasks) as [jsonData ->].
    cbn [log fst snd].
    match goal with |- context [callLiteLLM (tick ?w0) _ _ _] =>
      assert (H2 : quiet w w0)
        by (eapply quiet_trans; [exact H1 | exists [LogProcessing (length tasks)];
              split; [reflexivity | repeat constructor]]);
      set (w2 := w0) in *
    end.
    destruct (callLiteLLM (tick w2) url model _) as [results | msg].
    + unfold applyResults.
      pose proof (forEach_quiet (applyResult (buildTaskMap tasks)) results
                    (applyResult_quiet (buildTaskMap tasks)) w2) as H3.
      destruct (forEach results _ w2) as [[] w3]. cbn [fst snd ret] in *.
      eapply quiet_trans; eassumption.
    + cbn [log fst snd].
      match goal with |- context [forEach tasks ?b ?wlog] =>
        pose proof (forEach_quiet b tasks (failTransport_quiet maxRetries msg) wlog) as H3;
        assert (H4 : quiet w2 wlog)
          by (exists [LogAICallFailed msg]; split; [reflexivity | repeat constructor]);
        destruct (forEach tasks b wlog) as [[] w3]
      end.
      cbn [fst snd ret] in *.
      eapply quiet_trans; [exact H2|]. eapply quiet_trans; eassumption.
Qed.


(* --------------------------------------------------------------------- *)
(** *** A failed model call *)
(* --------------------------------------------------------------------- *)

Lemma failTransport_run maxRetries msg task w :
  failing w (tick w) = false ->
  failTransport maxRetries msg task w =
  (tt, next_tick (set_table
         (sql_update (fun r => ID r =? ID task)
            (markFailed (if Retries task <? maxRetries then msg else "Max retries exceeded")
                        (if Retries task <? maxRetries then add64 (Retries task) 1
                         else Retries task)
                        (clock w (tick w))) (disk w))
         (autoinc w) w)).
Proof.
  intros Hf. unfold failTransport, bind, ret.
  destruct (Retries task <? maxRetries); rewrite UpdateTaskFailure_run, Hf; reflexivity.
Qed.

Lemma forEach_failTransport maxRetries msg tasks : forall w,
  healthy w -> maxRetries <= maxInt64 ->
  NoDup (map ID tasks) ->
  Forall (fun t => ID t ∈ map ID (disk w) /\ in_int64 (Retries t)) tasks ->
  Forall (failed_in_transport maxRetries msg
            (disk (snd (forEach tasks (failTransport maxRetries msg) w)))) tasks.
Proof.
  induction tasks as [|t tasks IH]; intros w Hh Hcap Hnd Hall; [constructor|].
  cbn [forEach]. unfold bind.
  pose proof (failTransport_touches (t :: tasks) maxRetries msg t w (list_elem_of_here _ _))
    as [Ht1 Hf1].
  rewrite (failTransport_run maxRetries msg t w (Hh _)) in *.
  set (w1 := next_tick _) in *. cbn [snd] in Ht1, Hf1.
  simpl in Hnd. apply NoDup_cons in Hnd as [Hnotin Hnd].
  inversion Hall as [|? ? [Hin Hrange] Hrest]; subst.
  assert (Hh1 : healthy w1) by (intros k; rewrite Hf1; apply Hh).
  assert (Hids1 : map ID (disk w1) = map ID (disk w)) by (apply (only_touches_ids _ _ _ Ht1)).
  assert (Hall1 : Forall (fun t => ID t ∈ map ID (disk w1) /\ in_int64 (Retries t)) tasks).
  { eapply Forall_impl; [exact Hrest|]. intros t' [H1 H2]. rewrite Hids1. split; assumption. }
  specialize (IH w1 Hh1 Hcap Hnd Hall1).
  pose proof (forEach_touches (map ID tasks) (failTransport maxRetries msg) tasks
                (fun x wx Hx => failTransport_touches tasks maxRetries msg x wx Hx) w1)
    as [Ht2 _].
  destruct (forEach tasks (failTransport maxRetries msg) w1) as [[] w2].
  cbn [snd] in *. constructor; [|exact IH].
  unfold failed_in_transport.
  rewrite (row_of_untouched _ _ _ _ Ht2 Hnotin).
  destruct (row_of_present _ _ Hin) as (r0 & Hr0 & _).
  subst w1. cbn [disk next_tick set_table].
  rewrite row_of_update by reflexivity. rewrite Hr0. cbn [option_map].
  eexists. split; [reflexivity|]. split; [reflexivity|].
  destruct (Retries t <? maxRetries) eqn:Hlt; cbn [ErrorMessage Retries markFailed].
  - split; [reflexivity|]. apply add64_succ; [apply Hrange|].
    apply Z.ltb_lt in Hlt. lia.
  - split; reflexivity.
Qed.

Lemma forEach_ext {A : Type} (f g : A -> M unit) (xs : list A) :
  (forall x w, x ∈ xs -> f x w = g x w) ->
  forall w, forEach xs f w = forEach xs g w.
Proof.
  induction xs as [|x xs IH]; intros Hfg w; cbn [forEach]; [reflexivity|].
  unfold bind. rewrite (Hfg x w (list_elem_of_here _ _)).
  destruct (g x w) as [[] w1]. apply IH. intros y w' Hy. apply Hfg.
  apply list_elem_of_further. exact Hy.
Qed.

Lemma failTransport_per_spec maxRetries msg task w :
  in_int64 (Retries task) -> in_int64 maxRetries ->
  failTransport maxRetries msg task w = fail_per_spec maxRetries msg task w.
Proof.
  intros [Hlo _] [_ Hcap]. unfold failTransport, fail_per_spec.
  destruct (Retries task <? maxRetries) eqn:Hlt; [|reflexivity].
  rewrite add64_succ; [reflexivity | exact Hlo |]. apply Z.ltb_lt in Hlt. lia.
Qed.

(** C4. Take a turn of the loop that claims a batch and whose model call
    fails with message [msg].  For every task of the batch the worker calls
    [UpdateTaskFailure]: with [msg] and the task's retries plus one when
    those are below the cap (the 64-bit addition cannot wrap there), with
    "Max retries exceeded" and the task's retries otherwise.  When the store
    accepts the updates, every task of the batch ends up stored as failed
    with these values. *)
Theorem failed_model_call_fails_batch (url model msg : string) (n maxRetries : Z)
    (w : world) :
  NoDup (map ID (disk w)) ->
  Forall (fun r => in_int64 (Retries r)) (disk w) ->
  in_int64 maxRetries ->
  ctxDone (tick w) = false ->
  let '((tasks, err), w1) := FetchPendingBatch n w in
  err = None -> tasks <> [] ->
  callLiteLLM (tick w1) url model (fst (formatPrompt appendString tasks)) = inr msg ->
  let wlog := snd (log (LogAICallFailed msg)
                     (snd (log (LogProcessing (length tasks)) w1))) in
  let w' := snd (iteration appendString callLiteLLM ctxDone url model n maxRetries w) in
  w' = snd (forEach tasks (fail_per_spec maxRetries msg) wlog) /\
  (healthy w -> Forall (failed_in_transport maxRetries msg (disk w')) tasks).
Proof.
  intros Hnd Hrange Hcap Hctx. unfold iteration. rewrite Hctx. unfold bind.
  pose proof (FetchPendingBatch_run n w) as Hrun.
  pose proof (FetchPendingBatch_touches n w) as Htouch.
  destruct (FetchPendingBatch n w) as [[tasks err] w1].
  intros -> Hne Hcall. destruct Hrun as (Hf1 & _ & _ & _ & Htasks & _).
  destruct Htouch as [Ht1 Hpending]. cbn [fst snd].
  destruct (length tasks =? 0)%nat eqn:Hlen.
  { apply Nat.eqb_eq in Hlen. destruct tasks; [contradiction | discriminate]. }
  destruct (formatPrompt_total tasks) as [jsonData Hprompt].
  rewrite Hprompt in *. cbn [log fst snd tick] in *. rewrite Hcall.
  cbn [log fst snd].
  assert (Htasks_range : forall t, t ∈ tasks -> in_int64 (Retries t)).
  { intros t Hin. rewrite Forall_forall in Hpending.
    destruct (Hpending t Hin) as (r & Hr & _ & ->).
    rewrite Forall_forall in Hrange. apply (Hrange r Hr). }
  match goal with |- context [forEach tasks ?b ?wlog] =>
    pose proof (forEach_failTransport maxRetries msg tasks wlog) as Hfail;
    pose proof (forEach_ext b (fail_per_spec maxRetries msg) tasks
                  (fun x wx Hx => failTransport_per_spec maxRetries msg x wx
                                    (Htasks_range x Hx) Hcap) wlog) as Hspec;
    destruct (forEach tasks b wlog) as [[] w3]
  end.
  cbn [snd fst ret disk failing] in *. split.
  - rewrite <- Hspec. reflexivity.
  - intros Hh. apply Hfail.
    + intros k. rewrite Hf1. apply Hh.
    + apply Hcap.
    + rewrite Htasks. apply claimed_ids_unique. exact Hnd.
    + apply Forall_forall. intros t Hin. split; [|apply Htasks_range; exact Hin].
      rewrite Forall_forall in Hpending. destruct (Hpending t Hin) as (r & Hr & _ & ->).
      rewrite (only_touches_ids _ _ _ Ht1). apply list_elem_of_fmap.
      exists r. split; [reflexivity | exact Hr].
Qed.

(* --------------------------------------------------------------------- *)
(** *** Outcomes of a successful model call *)
(* --------------------------------------------------------------------- *)






End WorkerFacts.

(* --------------------------------------------------------------------- *)
(** *** The worker on sample data *)
(* --------------------------------------------------------------------- *)

Lemma exampleWorld_healthy rows : healthy (exampleWorld rows).
Proof. intros k. reflexivity. Qed.

Lemma DecompileWorker_keeps_completed_rows_witness :
  NoDup (map ID (disk (exampleWorld [completedRow 1 "method1"; pendingRow 2 "method2" 0]))) /\
  Forall2 (fun r r' => Status r = StatusCompleted -> r' = r)
    (disk (exampleWorld [completedRow 1 "method1"; pendingRow 2 "method2" 0]))
    (disk (snd (DecompileWorker quoteString modelDown neverDone 3 "url" "model" 10 3
                  (exampleWorld [completedRow 1 "method1"; pendingRow 2 "method2" 0])))).
Proof.
  assert (Hnd : NoDup (map ID (disk (exampleWorld
                  [completedRow 1 "method1"; pendingRow 2 "method2" 0])))).
  { apply (bool_decide_unpack _). vm_compute. exact I. }
  split; [exact Hnd|].
  exact (proj2 (DecompileWorker_keeps_completed_rows quoteString modelDown neverDone
                  3 "url" "model" 10 3 _ Hnd)).
Defined.

(** Against C3 as stated: one pending task is claimed; the model reply
    carries two outcomes for its symbol, a success and then a failure.  The
    first outcome stores the row as completed; the second one, applied by
    the same worker in the same turn, overwrites its status and its error. *)
Lemma completed_row_overwritten_by_later_outcome :
  let w0 := exampleWorld [pendingRow 1 "method1" 0] in
  let tasks := fst (fst (FetchPendingBatch 10 w0)) in
  let w1 := snd (FetchPendingBatch 10 w0) in
  let w2 := snd (applyResults tasks (take 1 okThenFailed) w1) in
  let w3 := snd (applyResults tasks okThenFailed w1) in
  map Status (disk w2) = [StatusCompleted] /\
  map ErrorMessage (disk w2) = [None] /\
  map Status (disk w3) = [StatusFailed] /\
  map ErrorMessage (disk w3) = [Some "cannot decompile"] /\
  disk (snd (iteration quoteString modelRepeats neverDone "url" "model" 10 3 w0)) = disk w3.
Proof. vm_compute. repeat split; reflexivity. Qed.

Lemma failed_model_call_fails_batch_witness :
  let w0 := exampleWorld [pendingRow 1 "method1" 0; pendingRow 2 "method2" 3] in
  Forall (failed_in_transport 3 "LiteLLM API returned non-200 status"
            (disk (snd (iteration quoteString modelDown neverDone "url" "model" 10 3 w0))))
         (fst (fst (FetchPendingBatch 10 w0))).
Proof.
  intros w0.
  assert (Hnd : NoDup (map ID (disk w0))).
  { apply (bool_decide_unpack _). vm_compute. exact I. }
  assert (Hrange : Forall (fun r => in_int64 (Retries r)) (disk w0)).
  { repeat constructor; vm_compute; discriminate. }
  assert (Hcap : in_int64 3) by (split; vm_compute; discriminate).
  pose proof (failed_model_call_fails_batch quoteString modelDown neverDone
                "url" "model" "LiteLLM API returned non-200 status" 10 3 w0
                Hnd Hrange Hcap eq_refl) as H.
  assert (Hfetch : fst (FetchPendingBatch 10 w0)
                   = ([scanTask (pendingRow 1 "method1" 0);
                       scanTask (pendingRow 2 "method2" 3)], None)) by reflexivity.
  destruct (FetchPendingBatch 10 w0) as [[tasks err] w1].
  cbn [fst] in Hfetch. injection Hfetch as -> ->.
  exact (proj2 (H eq_refl ltac:(discriminate) eq_refl) (exampleWorld_healthy _)).
Defined.


(* ===================================================================== *)
(** ** Concurrent claims: statements *)
(* ===================================================================== *)

Lemma others_lookup (cs : list Concurrent.call) (i j : nat) c :
  i <> j -> cs !! j = Some c -> c ∈ Concurrent.others i cs.
Proof.
  intros Hne Hj. unfold Concurrent.others. apply elem_of_app.
  destruct (decide (j < i)%nat) as [Hlt|Hge].
  - left. apply (list_elem_of_lookup_2 _ j). rewrite lookup_take_lt by exact Hlt. exact Hj.
  - right. apply (list_elem_of_lookup_2 _ (j - S i)%nat). rewrite lookup_drop.
    replace (S i + (j - S i))%nat with j by lia. exact Hj.
Qed.

Lemma others_free (f : Concurrent.call -> bool) (cs : list Concurrent.call) (i j : nat) c :
  existsb f (Concurrent.others i cs) = false ->
  i <> j -> cs !! j = Some c -> f c = false.
Proof.
  intros Hex Hne Hj. destruct (f c) eqn:Hf; [|reflexivity].
  assert (existsb f (Concurrent.others i cs) = true); [|congruence].
  apply existsb_exists. exists c. split; [|exact Hf].
  apply list_elem_of_In. eapply others_lookup; eassumption.
Qed.

Lemma insert_lookup_cases (cs : list Concurrent.call) (i j : nat) c c' :
  <[i := c']> cs !! j = Some c ->
  (j = i /\ c = c') \/ (j <> i /\ cs !! j = Some c).
Proof.
  intros H. destruct (decide (j = i)) as [->|Hne].
  - left. split; [reflexivity|].
    apply list_lookup_insert_Some in H as [(_ & -> & _) | (Hne & _)]; [reflexivity | congruence].
  - right. split; [exact Hne|]. rewrite list_lookup_insert_ne in H by congruence. exact H.
Qed.

(** Replacing a call that had not returned by one that holds no task keeps
    the returned batches disjoint. *)
Lemma returned_disjoint_insert (cs : list Concurrent.call) (i : nat) c' :
  returned_disjoint cs ->
  (forall t e, c' = Concurrent.Returned t e ->
     forall j tj ej, j <> i -> cs !! j = Some (Concurrent.Returned tj ej) ->
       disjoint_ids t tj /\ disjoint_ids tj t) ->
  returned_disjoint (<[i := c']> cs).
Proof.
  intros Hd Hnew a b ta ea tb eb Hab Ha Hb.
  apply insert_lookup_cases in Ha as [[-> Ha] | [Hai Ha]];
    apply insert_lookup_cases in Hb as [[-> Hb] | [Hbi Hb]].
  - congruence.
  - symmetry in Ha. exact (proj1 (Hnew _ _ Ha b tb eb Hbi Hb)).
  - symmetry in Hb. exact (proj2 (Hnew _ _ Hb a ta ea Hai Ha)).
  - exact (Hd a b ta ea tb eb Hab Ha Hb).
Qed.

Lemma disjoint_ids_nil_l tasks : disjoint_ids [] tasks.
Proof. intros id Hin. inversion Hin. Qed.

Lemma disjoint_ids_nil_r tasks : disjoint_ids tasks [].
Proof. intros id _ Hin. inversion Hin. Qed.

Lemma pending_vs_settled rows t1 t2 :
  Forall (has_pending rows) (map ID t1) ->
  Forall (fun id => ~ has_pending rows id) (map ID t2) ->
  disjoint_ids t1 t2 /\ disjoint_ids t2 t1.
Proof.
  rewrite !Forall_forall. intros H1 H2. split; intros id Ha Hb.
  - exact (H2 id Hb (H1 id Ha)).
  - exact (H2 id Ha (H1 id Hb)).
Qed.

(** The UPDATE of a claim makes no row pending, and leaves none of its own
    ids pending. *)
Lemma claim_update_pending ids now rows id :
  has_pending (sql_update (id_in ids) (markInFlight now) rows) id ->
  has_pending rows id /\ id ∉ ids.
Proof.
  intros (r' & Hin & Hid & Hst). unfold sql_update in Hin.
  apply list_elem_of_fmap in Hin as (r & -> & Hr).
  destruct (id_in ids r) eqn:Hc.
  - discriminate Hst.
  - split; [exists r; repeat split; assumption|].
    intros Hmem. apply not_true_iff_false in Hc. apply Hc, id_in_spec.
    rewrite Hid. exact Hmem.
Qed.

Lemma call_ok_after_commit ids now rows c :
  Concurrent.holds_shared c = false ->
  call_ok rows c ->
  call_ok (sql_update (id_in ids) (markInFlight now) rows) c.
Proof.
  intros Hfree Hok. destruct c as [n | tasks | tasks work | tasks e];
    try discriminate Hfree; [exact I|].
  simpl in *. eapply Forall_impl; [exact Hok|]. intros id Hn Hp.
  apply Hn. exact (proj1 (claim_update_pending _ _ _ _ Hp)).
Qed.

Lemma fire_keeps_invariant a s s' :
  claims_invariant s -> Concurrent.fire a s = Some s' -> claims_invariant s'.
Proof.
  intros [Hok Hdis] Hfire. destruct a as [i | i now | i | i e]; simpl in Hfire.
  - (* Select *)
    destruct (Concurrent.calls s !! i) as [[n| | |]|] eqn:Hi; try discriminate Hfire.
    injection Hfire as <-. split; simpl.
    + intros j c Hj. apply insert_lookup_cases in Hj as [[-> ->] | [Hne Hj]]; [|eauto].
      destruct (length _ =? 0)%nat; simpl; [constructor|].
      rewrite scanned_ids. apply Forall_forall. intros id Hid.
      apply list_elem_of_fmap in Hid as (r & -> & Hr).
      pose proof (sql_select_pending n (Concurrent.table s)) as Hall.
      rewrite Forall_forall in Hall. destruct (Hall r Hr) as [Hin Hp].
      exists r. repeat split; assumption.
    + apply returned_disjoint_insert; [exact Hdis|].
      intros t e Hc j tj ej _ _. destruct (length _ =? 0)%nat; [|discriminate Hc].
      injection Hc as <- _. split; [apply disjoint_ids_nil_l | apply disjoint_ids_nil_r].
  - (* Update *)
    destruct (Concurrent.calls s !! i) as [[|tasks| |]|] eqn:Hi; try discriminate Hfire.
    destruct (existsb _ _); [discriminate Hfire|].
    injection Hfire as <-. split; simpl.
    + intros j c Hj. apply insert_lookup_cases in Hj as [[-> ->] | [Hne Hj]]; [|eauto].
      simpl. split; [exact (Hok i _ Hi) | exists now; reflexivity].
    + apply returned_disjoint_insert; [exact Hdis|]. intros t e Hc. discriminate Hc.
  - (* CommitTx *)
    destruct (Concurrent.calls s !! i) as [[| |tasks work|]|] eqn:Hi; try discriminate Hfire.
    destruct (existsb Concurrent.holds_shared _) eqn:Hfree; [discriminate Hfire|].
    injection Hfire as <-.
    destruct (Hok i _ Hi) as [Hpend (now & ->)]. split; simpl.
    + intros j c Hj. apply insert_lookup_cases in Hj as [[-> ->] | [Hne Hj]].
      * simpl. apply Forall_forall. intros id Hid Hp.
        exact (proj2 (claim_update_pending _ _ _ _ Hp) Hid).
      * apply call_ok_after_commit; [|eauto].
        eapply others_free; [exact Hfree | | exact Hj]. congruence.
    + apply returned_disjoint_insert; [exact Hdis|].
      intros t e Hc j tj ej Hne Hj. injection Hc as <- _.
      apply (pending_vs_settled (Concurrent.table s)); [exact Hpend|].
      exact (Hok j _ Hj).
  - (* Abort *)
    destruct (Concurrent.calls s !! i) as [[| | |]|] eqn:Hi; try discriminate Hfire;
      injection Hfire as <-; (split; simpl;
      [ intros j c Hj; apply insert_lookup_cases in Hj as [[-> ->] | [Hne Hj]];
        [constructor | eauto]
      | apply returned_disjoint_insert; [exact Hdis|];
        intros t e' Hc j tj ej _ _; injection Hc as <- _;
        split; [apply disjoint_ids_nil_l | apply disjoint_ids_nil_r] ]).
Qed.

Lemma start_invariant rows batchSizes :
  claims_invariant (Concurrent.start rows batchSizes).
Proof.
  split; simpl.
  - intros i c Hi. apply list_lookup_fmap_Some in Hi as (n & -> & _). exact I.
  - intros i j ti ei tj ej _ Hi _. apply list_lookup_fmap_Some in Hi as (n & Hc & _).
    discriminate Hc.
Qed.

Lemma run_keeps_invariant schedule : forall s s',
  claims_invariant s -> Concurrent.run schedule s = Some s' -> claims_invariant s'.
Proof.
  induction schedule as [|a schedule IH]; intros s s' Hinv Hrun; simpl in Hrun.
  - injection Hrun as <-. exact Hinv.
  - destruct (Concurrent.fire a s) as [s1|] eqn:Hfire; [|discriminate Hrun].
    eapply IH; [|exact Hrun]. eapply fire_keeps_invariant; eassumption.
Qed.

(** A call that runs alone and meets no failure goes through the steps of
    the schedule model exactly as [FetchPendingBatch] does: same returned
    batch, same table afterwards. *)
Lemma solo_call_is_FetchPendingBatch n w :
  healthy w ->
  let '((tasks, err), w') := FetchPendingBatch n w in
  err = None /\
  exists now,
    Concurrent.run (soloSchedule tasks now) (Concurrent.start (disk w) [n])
    = Some {| Concurrent.table := disk w';
              Concurrent.calls := [Concurrent.Returned tasks None] |}.
Proof.
  intros Hh. pose proof (FetchPendingBatch_run n w) as Hrun.
  pose proof (FetchPendingBatch_healthy n w Hh) as [Herr _].
  destruct (FetchPendingBatch n w) as [[tasks err] w']. cbn [fst snd] in Herr. subst err.
  destruct Hrun as (_ & _ & _ & _ & Htasks & Hcases). split; [reflexivity|].
  destruct Hcases as [[Hnil Hd] | [Hne (now & Hd)]].
  - exists 0. rewrite Hnil in *. rewrite Hd.
    cbn [soloSchedule Concurrent.run Concurrent.fire Concurrent.start Concurrent.calls
         Concurrent.table map lookup list_lookup].
    rewrite <- Htasks. reflexivity.
  - exists now. rewrite Hd. destruct tasks as [|t tasks]; [contradiction|].
    cbn [soloSchedule Concurrent.run Concurrent.fire Concurrent.start Concurrent.calls
         Concurrent.table map lookup list_lookup].
    rewrite <- Htasks. reflexivity.
Qed.

(** C1. Any number of goroutines call [FetchPendingBatch] on one store,
    their statements interleaving in any order the locks allow and any of
    them failing at any moment.  Whatever the schedule, two calls that have
    returned hold no task id in common. *)
Theorem concurrent_claims_are_disjoint (rows : list Task) (batchSizes : list Z)
    (schedule : list Concurrent.action) (s : Concurrent.state)
    (i j : nat) (ti tj : list Task) (ei ej : option error) :
  Concurrent.run schedule (Concurrent.start rows batchSizes) = Some s ->
  i <> j ->
  Concurrent.calls s !! i = Some (Concurrent.Returned ti ei) ->
  Concurrent.calls s !! j = Some (Concurrent.Returned tj ej) ->
  forall id, id ∈ map ID ti -> id ∉ map ID tj.
Proof.
  intros Hrun Hne Hi Hj.
  destruct (run_keeps_invariant schedule _ _ (start_invariant rows batchSizes) Hrun)
    as [_ Hdis].
  exact (Hdis i j ti ei tj ej Hne Hi Hj).
Qed.

(** The schedules of the sample: what each goroutine returns. *)
Lemma serialSchedule_returns :
  option_map (fun s => map (fun c => match c with
                                     | Concurrent.Returned tasks None => Some (map ID tasks)
                                     | _ => None
                                     end) (Concurrent.calls s))
             (Concurrent.run serialSchedule (Concurrent.start fourPending [2; 2]))
  = Some [Some [1; 2]; Some [3; 4]].
Proof. vm_compute. reflexivity. Qed.

Lemma racingSchedule_returns :
  option_map (fun s => map (fun c => match c with
                                     | Concurrent.Returned tasks _ => Some (map ID tasks)
                                     | _ => None
                                     end) (Concurrent.calls s))
             (Concurrent.run racingSchedule (Concurrent.start fourPending [2; 2]))
  = Some [Some [1; 2]; Some []].
Proof. vm_compute. reflexivity. Qed.

(** Without the RESERVED lock the second writer cannot proceed. *)
Lemma second_writer_refused :
  Concurrent.run [Concurrent.Select 0; Concurrent.Select 1;
                  Concurrent.Update 0 200; Concurrent.Update 1 201]
                 (Concurrent.start fourPending [2; 2]) = None.
Proof. vm_compute. reflexivity. Qed.

(** With another reader in progress a writer cannot commit. *)
Lemma commit_waits_for_readers :
  Concurrent.run [Concurrent.Select 0; Concurrent.Select 1;
                  Concurrent.Update 0 200; Concurrent.CommitTx 0]
                 (Concurrent.start fourPending [2; 2]) = None.
Proof. vm_compute. reflexivity. Qed.

Lemma concurrent_claims_are_disjoint_witness :
  exists s,
    Concurrent.run serialSchedule (Concurrent.start fourPending [2; 2]) = Some s /\
    exists t0 t1,
      Concurrent.calls s !! 0%nat = Some (Concurrent.Returned t0 None) /\
      Concurrent.calls s !! 1%nat = Some (Concurrent.Returned t1 None) /\
      map ID t0 = [1; 2] /\ map ID t1 = [3; 4] /\
      forall id, id ∈ map ID t0 -> id ∉ map ID t1.
Proof.
  destruct (Concurrent.run serialSchedule (Concurrent.start fourPending [2; 2]))
    as [s|] eqn:Hrun; [|vm_compute in Hrun; discriminate Hrun].
  exists s. split; [reflexivity|].
  assert (Hs : Some s = Concurrent.run serialSchedule (Concurrent.start fourPending [2; 2]))
    by (symmetry; exact Hrun).
  vm_compute in Hs. injection Hs as ->.
  eexists _, _. split; [reflexivity|]. split; [reflexivity|].
  split; [reflexivity|]. split; [reflexivity|].
  exact (concurrent_claims_are_disjoint fourPending [2; 2] serialSchedule _
           0%nat 1%nat _ _ None None Hrun ltac:(discriminate) eq_refl eq_refl).
Defined.
